(** * mitt: a tiny functional event emitter (src/index.ts)

    A shallow embedding of the emitter returned by [mitt(all)] and a
    verification of its dispatch, registration and removal behaviour.

    The embedding keeps the two levels of mutable data the TypeScript code
    has:
    - the [Map] from event type to an array *reference* ([all]), and
    - the arrays themselves, which [push] and [splice] mutate in place and
      which two keys of a caller-supplied map may share ([heap]).

    Handlers are function objects: they are compared by reference
    ([indexOf] uses [===]) and, when called, may do anything to the emitter
    they close over.  A handler is therefore a reference (a number) together
    with a [behaviour]: a transformer of the whole state that either returns
    or throws. *)

From stdpp Require Import gmap strings list fin_maps.
From Stdlib Require Import ZArith.

Module Mitt.

(** ** Event types:  [type EventType = string | symbol] *)

Inductive EventType : Type :=
  | Str (s : string)
  | Sym (n : N).

#[global] Instance EventType_eq_dec : EqDecision EventType.
Proof. solve_decision. Defined.

#[global] Instance EventType_countable : Countable EventType.
Proof.
  refine (inj_countable'
            (λ k, match k with Str s => inl s | Sym n => inr n end)
            (λ x, match x with inl s => Str s | inr n => Sym n end) _).
  by intros [].
Defined.

(** The reserved key ['*']. *)
Definition WILDCARD : EventType := Str "*".

(** Function objects and array objects are references. *)
Abbreviation handler := nat (only parsing).
Abbreviation loc := nat (only parsing).

(** ** Array primitives used by the emitter *)

Section Arrays.
Context {A : Type} `{EqDecision A}.

(** [Array.prototype.indexOf]: the first index holding [x] (strict
    equality), or [-1]. *)
Fixpoint indexOf_from (i : Z) (x : A) (xs : list A) : Z :=
  match xs with
  | [] => (-1)%Z
  | y :: ys => if decide (y = x) then i else indexOf_from (i + 1)%Z x ys
  end.

Definition indexOf (x : A) (xs : list A) : Z := indexOf_from 0%Z x xs.

(** [Array.prototype.splice(start, deleteCount)] with no inserted items:
    [start] is clamped into [0 .. length], the number of deleted elements
    into [0 .. length - start]. *)
Definition splice (start deleteCount : Z) (xs : list A) : list A :=
  let len := Z.of_nat (length xs) in
  let actualStart :=
    if (start <? 0)%Z then Z.max (len + start) 0 else Z.min start len in
  let actualDeleteCount :=
    Z.min (Z.max deleteCount 0) (len - actualStart) in
  take (Z.to_nat actualStart) xs
    ++ drop (Z.to_nat (actualStart + actualDeleteCount)) xs.

(** [Array.prototype.push] of one element. *)
Definition push (x : A) (xs : list A) : list A := xs ++ [x].
End Arrays.

(** [n >>> 0]: conversion to an unsigned 32-bit integer. *)
Definition to_uint32 (z : Z) : Z := (z mod 2 ^ 32)%Z.

(** The largest length a JavaScript array can have, [2^32 - 1]. *)
Definition MAX_ARRAY_LENGTH : Z := (2 ^ 32 - 1)%Z.

(** ** The emitter *)

Section Emitter.
(** Event payloads, thrown values, and whatever state of the embedding
    application the handlers read and write. *)
Variables Payload Exn User : Type.

(** [all] is the [Map]; [heap] holds the arrays the map's values refer to.
    A location without an entry in [heap] is an array nothing was pushed
    to yet, so every reference in [all] denotes an array, as in the
    source. *)
Record State : Type := mkState {
  all : gmap EventType loc;
  heap : gmap loc (list handler);
  user : User
}.

(** The arguments a handler is called with: [handler(evt)] for a
    type-matched handler, [handler(type, evt)] for a wildcard handler. *)
Inductive args : Type :=
  | CallEvt (evt : Payload)
  | CallWild (type : EventType) (evt : Payload).

(** A call either returns or throws; the state is what the callee made of
    it up to that point. *)
Inductive outcome : Type :=
  | Returned (s : State)
  | Thrown (e : Exn) (s : State).

Definition final (o : outcome) : State :=
  match o with Returned s => s | Thrown _ s => s end.

Definition returned (o : outcome) : Prop :=
  match o with Returned _ => True | Thrown _ _ => False end.

(** One handler invocation, as an observer of the emitter sees it: which
    function object was called, and with what. *)
Local Abbreviation invocation := (handler * args)%type (only parsing).

(** What calling each function object does, from call to return or throw,
    including whatever the body does to the emitter itself (calls to [on],
    [off] and [emit], writes to the exposed map).  A handler that never
    returns is outside this model: [emit] would not return either. *)
Variable behaviour : handler → args → State → outcome.

(** The contents of the array at [l]. *)
Definition array_at (s : State) (l : loc) : list handler :=
  default [] (heap s !! l).

(** The handler sequence [all.get(type)] refers to ([[]] if there is
    none). *)
Definition handlers_of (s : State) (type : EventType) : list handler :=
  match all s !! type with
  | Some l => array_at s l
  | None => []
  end.

(** A reference for a new array literal: one no key and no array uses. *)
Definition new_loc (s : State) : loc :=
  fresh (dom (heap s) ∪ map_img (all s) : gset nat).

(** [on(type, handler)] *)
Definition on (type : EventType) (h : handler) (s : State) : State :=
  match all s !! type with
  | Some l =>
      (* handlers.push(handler) *)
      mkState (all s) (<[l := push h (array_at s l)]> (heap s)) (user s)
  | None =>
      (* all.set(type, [handler]) *)
      let l := new_loc s in
      mkState (<[type := l]> (all s)) (<[l := [h]]> (heap s)) (user s)
  end.

(** [off(type, handler?)] *)
Definition off (type : EventType) (h : option handler) (s : State) : State :=
  match all s !! type with
  | Some l =>
      match h with
      | Some h =>
          (* handlers.splice(handlers.indexOf(handler) >>> 0, 1) *)
          mkState (all s)
            (alter (λ hs, splice (to_uint32 (indexOf h hs)) 1 hs) l (heap s))
            (user s)
      | None =>
          (* all.set(type, []) *)
          let l' := new_loc s in
          mkState (<[type := l']> (all s)) (<[l' := []]> (heap s)) (user s)
      end
  | None => s
  end.

(** [copy.map(handler => { handler(...) })] over a private copy [hs] of an
    array: the handlers are called in index order, each in the state the
    previous one left; the first one that throws ends the loop. *)
Fixpoint dispatch (a : args) (hs : list handler) (s : State)
  : list invocation * outcome :=
  match hs with
  | [] => ([], Returned s)
  | h :: hs' =>
      match behaviour h a s with
      | Returned s' =>
          let r := dispatch a hs' s' in ((h, a) :: r.1, r.2)
      | Thrown e s' => ([(h, a)], Thrown e s')
      end
  end.

(** [let handlers = all.get(key); if (handlers) handlers.slice().map(...)] *)
Definition dispatch_key (key : EventType) (a : args) (s : State)
  : list invocation * outcome :=
  match all s !! key with
  | Some l => dispatch a (array_at s l) s
  | None => ([], Returned s)
  end.

(** [emit(type, evt)]: the invocations it made, in order, and how it
    ended. *)
Definition emit (type : EventType) (evt : Payload) (s : State)
  : list invocation * outcome :=
  let r1 := dispatch_key type (CallEvt evt) s in
  match r1.2 with
  | Returned s1 =>
      let r2 := dispatch_key WILDCARD (CallWild type evt) s1 in
      (r1.1 ++ r2.1, r2.2)
  | Thrown e s1 => (r1.1, Thrown e s1)
  end.

(** ** Sequences of calls made on the emitter *)

Inductive call : Type :=
  | On (type : EventType) (h : handler)
  | Off (type : EventType) (h : option handler)
  | Emit (type : EventType) (evt : Payload).

(** A caller that goes on after an [emit] that threw has caught the
    exception. *)
Definition run_call (s : State) (c : call) : State :=
  match c with
  | On type h => on type h s
  | Off type h => off type h s
  | Emit type evt => final (emit type evt s).2
  end.

Definition run_calls (cs : list call) (s : State) : State :=
  foldl run_call s cs.

End Emitter.

Abbreviation invocation Payload := (nat * args Payload)%type (only parsing).

Arguments mkState {User} _ _ _.
Arguments all {User} _.
Arguments heap {User} _.
Arguments user {User} _.
Arguments CallEvt {Payload} _.
Arguments CallWild {Payload} _ _.
Arguments Returned {Exn User} _.
Arguments Thrown {Exn User} _ _.
Arguments final {Exn User} _.
Arguments returned {Exn User} _.
Arguments array_at {User} _ _.
Arguments handlers_of {User} _ _.
Arguments new_loc {User} _.
Arguments on {User} _ _ _.
Arguments off {User} _ _ _.
Arguments dispatch {Payload Exn User} _ _ _ _.
Arguments dispatch_key {Payload Exn User} _ _ _ _.
Arguments emit {Payload Exn User} _ _ _ _.
Arguments On {Payload} _ _.
Arguments Off {Payload} _ _.
Arguments Emit {Payload} _ _.
Arguments run_call {Payload Exn User} _ _ _.
Arguments run_calls {Payload Exn User} _ _ _.

(** ** Array facts: what [splice(indexOf(h) >>> 0, 1)] does *)

Section ArrayFacts.
Context {A : Type} `{EqDecision A}.

(** Stated from the specification: "removes the first occurrence found by
    reference/identity equality, scanning from the start"; nothing is
    removed when there is none. *)
Fixpoint remove_first_occurrence (x : A) (xs : list A) : list A :=
  match xs with
  | [] => []
  | y :: ys => if decide (y = x) then ys else y :: remove_first_occurrence x ys
  end.

Lemma indexOf_from_absent (i : Z) (x : A) (xs : list A) :
  x ∉ xs → indexOf_from i x xs = (-1)%Z.
Proof.
  revert i. induction xs as [|y ys IH]; intros i Hx; simpl; [done|].
  apply not_elem_of_cons in Hx as [Hne Hx].
  rewrite decide_False by done. by apply IH.
Qed.

Lemma indexOf_from_first (i : Z) (x : A) (l1 l2 : list A) :
  x ∉ l1 → indexOf_from i x (l1 ++ x :: l2) = (i + Z.of_nat (length l1))%Z.
Proof.
  revert i. induction l1 as [|y ys IH]; intros i Hx; simpl.
  - rewrite decide_True by done. lia.
  - apply not_elem_of_cons in Hx as [Hne Hx].
    rewrite decide_False by done. rewrite IH by done. lia.
Qed.

Lemma remove_first_occurrence_absent (x : A) (xs : list A) :
  x ∉ xs → remove_first_occurrence x xs = xs.
Proof.
  induction xs as [|y ys IH]; intros Hx; simpl; [done|].
  apply not_elem_of_cons in Hx as [Hne Hx].
  rewrite decide_False by done. by rewrite IH.
Qed.

Lemma remove_first_occurrence_first (x : A) (l1 l2 : list A) :
  x ∉ l1 → remove_first_occurrence x (l1 ++ x :: l2) = l1 ++ l2.
Proof.
  induction l1 as [|y ys IH]; intros Hx; simpl.
  - by rewrite decide_True.
  - apply not_elem_of_cons in Hx as [Hne Hx].
    rewrite decide_False by done. by rewrite IH.
Qed.

Lemma remove_first_occurrence_length (x : A) (xs : list A) :
  length (remove_first_occurrence x xs) ≤ length xs.
Proof.
  induction xs as [|y ys IH]; simpl; [done|].
  destruct (decide (y = x)); simpl; lia.
Qed.

(** Removing [x] keeps, in order, whatever does not contain [x]. *)
Lemma sublist_remove_first_occurrence (x : A) (w xs : list A) :
  w `sublist_of` xs → x ∉ w → w `sublist_of` remove_first_occurrence x xs.
Proof.
  induction 1 as [|y l1 l2 Hsub IH|y l1 l2 Hsub IH]; intros Hx; simpl.
  - constructor.
  - apply not_elem_of_cons in Hx as [Hne Hx].
    rewrite decide_False by done. by apply sublist_skip, IH.
  - destruct (decide (y = x)); [done|]. by apply sublist_cons, IH.
Qed.

(** Two elements kept in order sit at two increasing positions. *)
Lemma sublist_pair_lookup (x y : A) (xs : list A) :
  [x; y] `sublist_of` xs →
  ∃ i j, i < j ∧ xs !! i = Some x ∧ xs !! j = Some y.
Proof.
  intros Hsub.
  apply sublist_cons_l in Hsub as (k1 & k2 & -> & Hsub).
  apply sublist_cons_l in Hsub as (k3 & k4 & -> & _).
  exists (length k1), (length (k1 ++ x :: k3)). split; [|split].
  - rewrite length_app. simpl. lia.
  - by apply list_lookup_middle.
  - change (k1 ++ x :: k3 ++ y :: k4) with (k1 ++ (x :: k3) ++ y :: k4).
    rewrite app_assoc. by apply list_lookup_middle.
Qed.

(** Every list either lacks [x] or splits at the first [x]. *)
Lemma first_occurrence_split (x : A) (xs : list A) :
  x ∉ xs ∨ ∃ l1 l2, xs = l1 ++ x :: l2 ∧ x ∉ l1.
Proof.
  induction xs as [|y ys IH].
  - left. apply not_elem_of_nil.
  - destruct (decide (y = x)) as [->|Hne].
    + right. exists [], ys. split; [done|apply not_elem_of_nil].
    + destruct IH as [Hx|(l1 & l2 & -> & Hx)].
      * left. by apply not_elem_of_cons.
      * right. exists (y :: l1), l2. split; [done|].
        apply not_elem_of_cons. by split; [congruence|].
Qed.

(** Removing one element at an index inside the array. *)
Lemma splice_one_inside (l1 l2 : list A) (x : A) :
  splice (Z.of_nat (length l1)) 1 (l1 ++ x :: l2) = l1 ++ l2.
Proof.
  unfold splice. rewrite length_app. simpl.
  rewrite (proj2 (Z.ltb_ge _ _)) by lia.
  rewrite Z.min_l by lia.
  rewrite (Z.max_l 1 0) by lia.
  rewrite (Z.min_l 1) by lia.
  rewrite Nat2Z.id.
  replace (Z.to_nat (Z.of_nat (length l1) + 1)) with (length l1 + 1) by lia.
  rewrite take_app_length.
  rewrite drop_app_ge by lia.
  replace (length l1 + 1 - length l1) with 1 by lia.
  done.
Qed.

(** A start index at or past the end deletes nothing. *)
Lemma splice_past_end (start : Z) (xs : list A) :
  (Z.of_nat (length xs) ≤ start)%Z → splice start 1 xs = xs.
Proof.
  intros Hle. unfold splice.
  rewrite (proj2 (Z.ltb_ge _ _)) by lia.
  rewrite Z.min_r by lia.
  rewrite (Z.max_l 1 0) by lia.
  rewrite Z.min_r by lia.
  rewrite Z.sub_diag, Z.add_0_r, Nat2Z.id.
  by rewrite firstn_all, drop_all, app_nil_r.
Qed.

(** On an array of legal length the source's removal idiom removes the
    first occurrence, and nothing when there is none: [-1 >>> 0] is
    [4294967295], which no array length exceeds. *)
Lemma splice_indexOf (x : A) (xs : list A) :
  (Z.of_nat (length xs) ≤ MAX_ARRAY_LENGTH)%Z →
  splice (to_uint32 (indexOf x xs)) 1 xs = remove_first_occurrence x xs.
Proof.
  unfold MAX_ARRAY_LENGTH, to_uint32, indexOf. intros Hlen.
  destruct (first_occurrence_split x xs) as [Hx|(l1 & l2 & -> & Hx)].
  - rewrite indexOf_from_absent, remove_first_occurrence_absent by done.
    apply splice_past_end.
    change ((-1) mod 2 ^ 32)%Z with (2 ^ 32 - 1)%Z. lia.
  - rewrite indexOf_from_first, remove_first_occurrence_first by done.
    rewrite length_app in Hlen. simpl in Hlen.
    rewrite Z.add_0_l, Z.mod_small by lia.
    apply splice_one_inside.
Qed.
End ArrayFacts.

(** ** The registry under [on] and [off] *)

Section RegistryFacts.
Context {User : Type}.
Implicit Types (s : State User) (t k : EventType) (l : nat).

(** No two keys refer to the same array object.  This holds of a map the
    emitter built itself and of a caller-supplied map with one array per
    key; [on] and [off] keep it. *)
Definition NoAlias s : Prop :=
  ∀ k1 k2 l, all s !! k1 = Some l → all s !! k2 = Some l → k1 = k2.

(** Two keys refer to one and the same array object. *)
Definition shares_array s k1 k2 : Prop :=
  ∃ l, all s !! k1 = Some l ∧ all s !! k2 = Some l.

Lemma NoAlias_not_shares s k1 k2 :
  NoAlias s → k1 ≠ k2 → ¬ shares_array s k1 k2.
Proof. intros Hs Hne (l & H1 & H2). apply Hne. by apply (Hs k1 k2 l). Qed.

(** What [emit] can observe of the state: the map and the arrays. *)
Definition registry s : gmap EventType nat * gmap nat (list nat) :=
  (all s, heap s).

Lemma new_loc_unused s k : all s !! k ≠ Some (new_loc s).
Proof.
  intros Hk. unfold new_loc in Hk.
  apply (is_fresh (dom (heap s) ∪ map_img (all s) : gset nat)).
  apply elem_of_union_r, elem_of_map_img. eauto.
Qed.

Lemma new_loc_unallocated s : heap s !! new_loc s = None.
Proof.
  apply not_elem_of_dom. intros Hd.
  apply (is_fresh (dom (heap s) ∪ map_img (all s) : gset nat)).
  by apply elem_of_union_l.
Qed.

(** [on] appends at the end of the sequence of its key. *)
Lemma handlers_of_on t h s :
  handlers_of (on t h s) t = handlers_of s t ++ [h].
Proof.
  unfold on, handlers_of. destruct (all s !! t) as [l|] eqn:Ht; simpl.
  - rewrite Ht. unfold array_at. simpl. by rewrite lookup_insert_eq.
  - rewrite lookup_insert_eq. unfold array_at. simpl.
    by rewrite lookup_insert_eq.
Qed.

Lemma handlers_of_on_ne t h s k :
  ¬ shares_array s t k → k ≠ t →
  handlers_of (on t h s) k = handlers_of s k.
Proof.
  intros Hs Hk. unfold on, handlers_of.
  destruct (all s !! t) as [l|] eqn:Ht; simpl.
  - destruct (all s !! k) as [l'|] eqn:Hl'; [|done].
    unfold array_at. simpl. rewrite lookup_insert_ne; [done|].
    intros ->. apply Hs. by exists l'.
  - rewrite lookup_insert_ne by done.
    destruct (all s !! k) as [l'|] eqn:Hl'; [|done].
    unfold array_at. simpl. rewrite lookup_insert_ne; [done|].
    intros Heq. apply (new_loc_unused s k). by rewrite Hl', Heq.
Qed.

Lemma on_not_shares t h s k :
  ¬ shares_array s t k → k ≠ t → ¬ shares_array (on t h s) t k.
Proof.
  intros Hs Hk. unfold on, shares_array.
  destruct (all s !! t) as [l|] eqn:Ht; simpl.
  - intros (l' & H1 & H2). apply Hs. exists l'. split; [congruence|done].
  - intros (l' & H1 & H2). rewrite lookup_insert_eq in H1.
    rewrite lookup_insert_ne in H2 by done. injection H1 as <-.
    by destruct (new_loc_unused s k).
Qed.

(** [off] with a handler splices the sequence of its key in place. *)
Lemma handlers_of_off_handler t h s :
  handlers_of (off t (Some h) s) t
  = splice (to_uint32 (indexOf h (handlers_of s t))) 1 (handlers_of s t).
Proof.
  unfold off, handlers_of. destruct (all s !! t) as [l|] eqn:Ht; simpl.
  - rewrite Ht. unfold array_at. simpl. rewrite lookup_alter_eq.
    by destruct (heap s !! l).
  - by rewrite Ht.
Qed.

(** [off] without a handler leaves the key with a new, empty array. *)
Lemma handlers_of_off_clear t s : handlers_of (off t None s) t = [].
Proof.
  unfold off, handlers_of. destruct (all s !! t) as [l|] eqn:Ht; simpl.
  - rewrite lookup_insert_eq. unfold array_at. simpl.
    by rewrite lookup_insert_eq.
  - by rewrite Ht.
Qed.

Lemma handlers_of_off_ne t oh s k :
  ¬ shares_array s t k → k ≠ t →
  handlers_of (off t oh s) k = handlers_of s k.
Proof.
  intros Hs Hk. unfold off, handlers_of.
  destruct (all s !! t) as [l|] eqn:Ht; [|done].
  destruct oh as [h|]; simpl.
  - destruct (all s !! k) as [l'|] eqn:Hl'; [|done].
    unfold array_at. simpl. rewrite lookup_alter_ne; [done|].
    intros ->. apply Hs. by exists l'.
  - rewrite lookup_insert_ne by done.
    destruct (all s !! k) as [l'|] eqn:Hl'; [|done].
    unfold array_at. simpl. rewrite lookup_insert_ne; [done|].
    intros Heq. apply (new_loc_unused s k). by rewrite Hl', Heq.
Qed.

Lemma off_not_shares t oh s k :
  ¬ shares_array s t k → k ≠ t → ¬ shares_array (off t oh s) t k.
Proof.
  intros Hs Hk. unfold off, shares_array.
  destruct (all s !! t) as [l|] eqn:Ht; [|done].
  destruct oh as [h|]; simpl; [done|].
  intros (l' & H1 & H2). rewrite lookup_insert_eq in H1.
  rewrite lookup_insert_ne in H2 by done. injection H1 as <-.
  by destruct (new_loc_unused s k).
Qed.

(** Binding a key to a new array cannot make two keys share one. *)
Lemma insert_new_loc_NoAlias t s :
  NoAlias s →
  ∀ k1 k2 l, <[t := new_loc s]> (all s) !! k1 = Some l →
             <[t := new_loc s]> (all s) !! k2 = Some l → k1 = k2.
Proof.
  intros Hs k1 k2 l H1 H2.
  destruct (decide (k1 = t)) as [->|N1], (decide (k2 = t)) as [->|N2];
    [done| | |].
  - rewrite lookup_insert_eq in H1. rewrite lookup_insert_ne in H2 by done.
    injection H1 as <-. by destruct (new_loc_unused s k2).
  - rewrite lookup_insert_eq in H2. rewrite lookup_insert_ne in H1 by done.
    injection H2 as <-. by destruct (new_loc_unused s k1).
  - rewrite lookup_insert_ne in H1, H2 by done. by apply (Hs k1 k2 l).
Qed.

Lemma on_NoAlias t h s : NoAlias s → NoAlias (on t h s).
Proof.
  intros Hs. unfold on. destruct (all s !! t) as [l|] eqn:Ht.
  - exact Hs.
  - intros k1 k2 l'. simpl. by apply insert_new_loc_NoAlias.
Qed.

Lemma off_NoAlias t oh s : NoAlias s → NoAlias (off t oh s).
Proof.
  intros Hs. unfold off. destruct (all s !! t) as [l|] eqn:Ht; [|done].
  destruct oh as [h|].
  - exact Hs.
  - intros k1 k2 l'. simpl. by apply insert_new_loc_NoAlias.
Qed.

(** The key set: [on] adds its key, [off] changes nothing. *)
Lemma dom_all_on t h s : dom (all (on t h s)) = {[t]} ∪ dom (all s).
Proof.
  unfold on. destruct (all s !! t) as [l|] eqn:Ht; simpl.
  - symmetry. apply subseteq_union_1_L, singleton_subseteq_l.
    apply elem_of_dom. eauto.
  - by rewrite dom_insert_L.
Qed.

Lemma dom_all_off t oh s : dom (all (off t oh s)) = dom (all s).
Proof.
  unfold off. destruct (all s !! t) as [l|] eqn:Ht; [|done].
  destruct oh as [h|]; simpl; [done|].
  rewrite dom_insert_L.
  apply subseteq_union_1_L, singleton_subseteq_l.
  apply elem_of_dom. eauto.
Qed.

Lemma handlers_of_registry s1 s2 k :
  registry s1 = registry s2 → handlers_of s1 k = handlers_of s2 k.
Proof.
  unfold registry, handlers_of, array_at. intros [= Ha Hh].
  by rewrite Ha, Hh.
Qed.

Lemma user_on t h s : user (on t h s) = user s.
Proof. unfold on. by destruct (all s !! t). Qed.

Lemma user_off t oh s : user (off t oh s) = user s.
Proof. unfold off. by destruct (all s !! t), oh. Qed.
End RegistryFacts.

(** ** The dispatch loop *)

Section DispatchFacts.
Context {Payload Exn User : Type}.
Variable behaviour : nat → args Payload → State User → outcome Exn User.
Implicit Types (s : State User) (t k : EventType) (a : args Payload)
  (hs : list nat) (v : Payload).

(** The invocations a full pass over [hs] with arguments [a] makes. *)
Definition calls a hs : list (invocation Payload) := (λ h, (h, a)) <$> hs.

Lemma dispatch_key_handlers_of k a s :
  dispatch_key behaviour k a s = dispatch behaviour a (handlers_of s k) s.
Proof. unfold dispatch_key, handlers_of. by destruct (all s !! k). Qed.

Lemma emit_unfold t v s :
  emit behaviour t v s =
    let r1 := dispatch behaviour (CallEvt v) (handlers_of s t) s in
    match r1.2 with
    | Returned s1 =>
        let r2 :=
          dispatch behaviour (CallWild t v) (handlers_of s1 WILDCARD) s1 in
        (r1.1 ++ r2.1, r2.2)
    | Thrown e s1 => (r1.1, Thrown e s1)
    end.
Proof.
  unfold emit. rewrite dispatch_key_handlers_of. simpl.
  destruct (dispatch behaviour (CallEvt v) (handlers_of s t) s).2; [|done].
  by rewrite dispatch_key_handlers_of.
Qed.

(** The loop never calls anything outside the copy, and calls the copy in
    order. *)
Lemma dispatch_prefix a hs s :
  (dispatch behaviour a hs s).1 `prefix_of` calls a hs.
Proof.
  revert s. induction hs as [|h hs IH]; intros s; simpl; [done|].
  destruct (behaviour h a s) as [s'|e s']; simpl.
  - apply prefix_cons, IH.
  - apply prefix_cons, prefix_nil.
Qed.

(** If no handler throws, the whole copy is called. *)
Lemma dispatch_returned a hs s :
  returned (dispatch behaviour a hs s).2 →
  (dispatch behaviour a hs s).1 = calls a hs.
Proof.
  revert s. induction hs as [|h hs IH]; intros s; simpl; [done|].
  destruct (behaviour h a s) as [s'|e s']; simpl; [|done].
  intros Hr. by rewrite IH.
Qed.

(** The loop over [pre ++ post] when every handler of [pre] returns. *)
Lemma dispatch_app a pre post s s1 :
  dispatch behaviour a pre s = (calls a pre, Returned s1) →
  dispatch behaviour a (pre ++ post) s
  = (calls a pre ++ (dispatch behaviour a post s1).1,
     (dispatch behaviour a post s1).2).
Proof.
  revert s. induction pre as [|h pre IH]; intros s; simpl.
  - intros [= <-]. by destruct (dispatch behaviour a post s).
  - destruct (behaviour h a s) as [s'|e s']; simpl; [|done].
    intros [= Htr Ho].
    rewrite (IH s'); [done|].
    destruct (dispatch behaviour a pre s') as [tr o]. simpl in *.
    by rewrite Htr, Ho.
Qed.

(** A property every called handler keeps is kept by the loop. *)
Lemma dispatch_preserves (P : State User → Prop) a hs s :
  (∀ h s0, h ∈ hs → P s0 → P (final (behaviour h a s0))) →
  P s → P (final (dispatch behaviour a hs s).2).
Proof.
  revert s. induction hs as [|h hs IH]; intros s Hh Hs; simpl; [done|].
  assert (Hh0 : P (final (behaviour h a s))).
  { apply Hh; [apply list_elem_of_here|done]. }
  destruct (behaviour h a s) as [s'|e s']; simpl in *; [|done].
  apply IH; [|done].
  intros h' s0 Hin. apply Hh. by apply list_elem_of_further.
Qed.

(** The loop throws only what the handler it called last threw. *)
Lemma dispatch_thrown a hs s e sf :
  (dispatch behaviour a hs s).2 = Thrown e sf →
  ∃ h sb, last (dispatch behaviour a hs s).1 = Some (h, a)
          ∧ behaviour h a sb = Thrown e sf.
Proof.
  revert s. induction hs as [|h hs IH]; intros s; simpl; [done|].
  destruct (behaviour h a s) as [s'|e' s'] eqn:Hb; simpl.
  - intros Ho. destruct (IH s' Ho) as (h' & sb & Hl & Hb').
    exists h', sb. split; [|done].
    destruct (dispatch behaviour a hs s').1; [done|]. by rewrite last_cons, Hl.
  - intros [= -> ->]. by exists h, s.
Qed.

Lemma emit_preserves (P : State User → Prop) t v s :
  (∀ h a s0, P s0 → P (final (behaviour h a s0))) →
  P s → P (final (emit behaviour t v s).2).
Proof.
  intros Hh Hs. rewrite emit_unfold. simpl.
  pose proof (dispatch_preserves P (CallEvt v) (handlers_of s t) s
                (λ h s0 _, Hh h _ s0) Hs) as H1.
  destruct (dispatch behaviour (CallEvt v) (handlers_of s t) s).2
    as [s1|e s1]; simpl in *; [|done].
  apply dispatch_preserves; [|done]. intros h s0 _. apply Hh.
Qed.

Lemma run_calls_preserves (P : State User → Prop) (cs : list (call Payload)) s :
  (∀ c s0, c ∈ cs → P s0 → P (run_call behaviour s0 c)) →
  P s → P (run_calls behaviour cs s).
Proof.
  unfold run_calls. revert s.
  induction cs as [|c cs IH]; intros s Hc Hs; simpl; [done|].
  apply IH.
  - intros c' s0 Hin. apply Hc. by apply list_elem_of_further.
  - apply Hc; [apply list_elem_of_here|done].
Qed.

Lemma calls_app a hs1 hs2 : calls a (hs1 ++ hs2) = calls a hs1 ++ calls a hs2.
Proof. unfold calls. apply fmap_app. Qed.

(** Handlers that return at once and leave the state alone. *)
Lemma dispatch_inert a hs s :
  (∀ h s0, h ∈ hs → behaviour h a s0 = Returned s0) →
  dispatch behaviour a hs s = (calls a hs, Returned s).
Proof.
  induction hs as [|h hs IH]; intros Hh; simpl; [done|].
  rewrite Hh by apply list_elem_of_here.
  rewrite IH; [done|]. intros h' s0 Hin. apply Hh.
  by apply list_elem_of_further.
Qed.

(** [emit] raises nothing of its own: what it throws, the handler it
    called last threw. *)
Lemma emit_thrown t v s e sf :
  (emit behaviour t v s).2 = Thrown e sf →
  ∃ h a sb, last (emit behaviour t v s).1 = Some (h, a)
            ∧ behaviour h a sb = Thrown e sf.
Proof.
  rewrite emit_unfold. simpl.
  pose proof (dispatch_thrown (CallEvt v) (handlers_of s t) s) as H1.
  destruct (dispatch behaviour (CallEvt v) (handlers_of s t) s)
    as [tr1 [s1|e1 s1]]; simpl in *.
  - intros Ho. apply dispatch_thrown in Ho as (h & sb & Hl & Hb).
    exists h, (CallWild t v), sb. split; [|done].
    by rewrite last_app, Hl.
  - intros [= -> ->]. destruct (H1 e sf eq_refl) as (h & sb & Hl & Hb).
    by exists h, (CallEvt v), sb.
Qed.

(** An [emit] in which no handler throws calls the sequence of its key as
    it was when [emit] began, then the wildcard sequence as it is once
    those calls are over. *)
Lemma emit_returned t v s :
  returned (emit behaviour t v s).2 →
  ∃ s1 s2,
    dispatch behaviour (CallEvt v) (handlers_of s t) s
    = (calls (CallEvt v) (handlers_of s t), Returned s1)
    ∧ emit behaviour t v s
      = (calls (CallEvt v) (handlers_of s t)
           ++ calls (CallWild t v) (handlers_of s1 WILDCARD), Returned s2).
Proof.
  rewrite emit_unfold. simpl.
  pose proof (dispatch_returned (CallEvt v) (handlers_of s t) s) as H1.
  destruct (dispatch behaviour (CallEvt v) (handlers_of s t) s)
    as [tr1 [s1|e1 s1]]; simpl in *; [|done].
  intros Hr. rewrite H1 by done.
  pose proof (dispatch_returned (CallWild t v) (handlers_of s1 WILDCARD) s1 Hr)
    as H2.
  destruct (dispatch behaviour (CallWild t v) (handlers_of s1 WILDCARD) s1)
    as [tr2 [s2|e2 s2]]; simpl in *; [|done].
  exists s1, s2. by rewrite H2.
Qed.

Lemma dispatch_all_return a hs s :
  (∀ h s0, returned (behaviour h a s0)) →
  returned (dispatch behaviour a hs s).2.
Proof.
  intros Hh. revert s. induction hs as [|h hs IH]; intros s; simpl; [done|].
  specialize (Hh h s). destruct (behaviour h a s); [apply IH|done].
Qed.

Lemma emit_all_return t v s :
  (∀ h a s0, returned (behaviour h a s0)) →
  returned (emit behaviour t v s).2.
Proof.
  intros Hh. rewrite emit_unfold. simpl.
  pose proof (dispatch_all_return (CallEvt v) (handlers_of s t) s
                (λ h s0, Hh h _ s0)) as H1.
  destruct (dispatch behaviour (CallEvt v) (handlers_of s t) s).2
    as [s1|e s1]; simpl in *; [|done].
  apply dispatch_all_return. intros h s0. apply Hh.
Qed.

(** Every invocation of a pass carries the arguments of that pass. *)
Lemma prefix_calls_args (tr : list (invocation Payload)) a hs i h a' :
  tr `prefix_of` calls a hs → tr !! i = Some (h, a') → a' = a.
Proof.
  intros Hp Hi. pose proof (prefix_lookup_Some _ _ _ _ Hi Hp) as Hc.
  unfold calls in Hc. rewrite list_lookup_fmap in Hc.
  destruct (hs !! i); simpl in Hc; congruence.
Qed.
End DispatchFacts.

(** ** Dispatch order *)

Section Dispatch.
Context {Payload Exn User : Type}.
Variable behaviour : nat → args Payload → State User → outcome Exn User.
Implicit Types (s : State User) (t k : EventType) (a : args Payload)
  (hs : list nat) (v : Payload).

(** C2 (wildcard-after ordering).  In the invocations of one
    [emit(t, v)], every call [h(v)] of a type-matched handler comes
    strictly before every call [hw(t, v)] of a wildcard handler; as soon
    as one wildcard handler has been called, the whole sequence registered
    under [t] has been called with [v]; and when no handler throws the
    invocations are that sequence followed by the sequence registered
    under ['*'].  The state [s] is arbitrary, so the order in which the
    two groups were registered plays no role. *)
Theorem emit_wildcard_after t v s :
  let tr := (emit behaviour t v s).1 in
  (∀ i j h hw,
     tr !! i = Some (hw, CallWild t v) → tr !! j = Some (h, CallEvt v) →
     j < i)
  ∧ (∀ hw, (hw, CallWild t v) ∈ tr →
           calls (CallEvt v) (handlers_of s t) `prefix_of` tr)
  ∧ (returned (emit behaviour t v s).2 →
     ∃ s1, tr = calls (CallEvt v) (handlers_of s t)
                ++ calls (CallWild t v) (handlers_of s1 WILDCARD)).
Proof.
  rewrite emit_unfold. simpl.
  pose proof (dispatch_prefix behaviour (CallEvt v) (handlers_of s t) s)
    as Hp1.
  pose proof (dispatch_returned behaviour (CallEvt v) (handlers_of s t) s)
    as Hr1.
  destruct (dispatch behaviour (CallEvt v) (handlers_of s t) s)
    as [tr1 [s1|e s1]]; simpl in *.
  - specialize (Hr1 I). subst tr1.
    pose proof (dispatch_prefix behaviour (CallWild t v)
                  (handlers_of s1 WILDCARD) s1) as Hp2.
    pose proof (dispatch_returned behaviour (CallWild t v)
                  (handlers_of s1 WILDCARD) s1) as Hr2.
    destruct (dispatch behaviour (CallWild t v) (handlers_of s1 WILDCARD) s1)
      as [tr2 o2]; simpl in *.
    split; [|split].
    + intros i j h hw Hi Hj.
      destruct (decide (i < length (calls (CallEvt v) (handlers_of s t))))
        as [Hlt|Hge].
      { rewrite lookup_app_l in Hi by done.
        by pose proof (prefix_calls_args _ _ _ _ _ _ (reflexivity _) Hi). }
      destruct (decide (j < length (calls (CallEvt v) (handlers_of s t))))
        as [Hlt'|Hge']; [lia|].
      rewrite lookup_app_r in Hj by lia.
      by pose proof (prefix_calls_args _ _ _ _ _ _ Hp2 Hj).
    + intros _ _. by apply prefix_app_r.
    + intros Hr. exists s1. by rewrite Hr2.
  - split; [|split].
    + intros i j h hw Hi _.
      by pose proof (prefix_calls_args _ _ _ _ _ _ Hp1 Hi).
    + intros hw Hin. apply list_elem_of_lookup in Hin as [i Hi].
      by pose proof (prefix_calls_args _ _ _ _ _ _ Hp1 Hi).
    + done.
Qed.

(** C4 (handler-exception propagation).  If, in the pass over the
    sequence registered under [t], the handlers before some position all
    return and the handler at that position throws [e], then [emit(t, v)]
    ends by throwing [e]: its invocations are the handlers up to and
    including the throwing one, no later type-matched handler and no
    wildcard handler is called, and the state is the one the earlier
    handlers and the throwing one produced.  Likewise when the type-matched
    pass completes and a wildcard handler throws: the invocations are the
    whole type-matched sequence and the wildcard handlers up to the
    throwing one. *)
Theorem emit_handler_exception t v s :
  (∀ pre h post e s1 s2,
     handlers_of s t = pre ++ h :: post →
     dispatch behaviour (CallEvt v) pre s
     = (calls (CallEvt v) pre, Returned s1) →
     behaviour h (CallEvt v) s1 = Thrown e s2 →
     emit behaviour t v s = (calls (CallEvt v) (pre ++ [h]), Thrown e s2))
  ∧ (∀ s1 pre h post e s2 s3,
       dispatch behaviour (CallEvt v) (handlers_of s t) s
       = (calls (CallEvt v) (handlers_of s t), Returned s1) →
       handlers_of s1 WILDCARD = pre ++ h :: post →
       dispatch behaviour (CallWild t v) pre s1
       = (calls (CallWild t v) pre, Returned s2) →
       behaviour h (CallWild t v) s2 = Thrown e s3 →
       emit behaviour t v s
       = (calls (CallEvt v) (handlers_of s t)
            ++ calls (CallWild t v) (pre ++ [h]), Thrown e s3)).
Proof.
  split.
  - intros pre h post e s1 s2 Hsplit Hpre Hthrow.
    rewrite emit_unfold, Hsplit. simpl.
    rewrite (dispatch_app behaviour _ pre (h :: post) s s1 Hpre). simpl.
    rewrite Hthrow. simpl. by rewrite calls_app.
  - intros s1 pre h post e s2 s3 Htype Hsplit Hpre Hthrow.
    rewrite emit_unfold, Htype. simpl. rewrite Hsplit.
    rewrite (dispatch_app behaviour _ pre (h :: post) s1 s2 Hpre). simpl.
    rewrite Hthrow. simpl. by rewrite calls_app.
Qed.

(** C6 (duplicate registrations).  After [on(t, h)] twice the sequence
    under [t] is the old one followed by [h] twice; an [emit(t, v)] in
    which no handler throws calls [h(v)] at both of these positions; and a
    registration always lengthens the sequence by one, whether or not the
    handler was already in it: nothing is deduplicated. *)
Theorem on_twice_dispatches_twice t h v s :
  let s' := on t h (on t h s) in
  let n := length (handlers_of s t) in
  handlers_of s' t = handlers_of s t ++ [h; h]
  ∧ (∀ h' s0, length (handlers_of (on t h' s0) t)
              = S (length (handlers_of s0 t)))
  ∧ (returned (emit behaviour t v s').2 →
     (emit behaviour t v s').1 !! n = Some (h, CallEvt v)
     ∧ (emit behaviour t v s').1 !! S n = Some (h, CallEvt v)).
Proof.
  simpl.
  assert (Hseq : handlers_of (on t h (on t h s)) t = handlers_of s t ++ [h; h]).
  { rewrite !handlers_of_on. by rewrite <- app_assoc. }
  split; [done|]. split.
  - intros h' s0. rewrite handlers_of_on, length_app. simpl. lia.
  - intros Hr. destruct (emit_returned _ _ _ _ Hr) as (s1 & s2 & _ & ->).
    simpl. rewrite Hseq, calls_app, <- app_assoc.
    assert (Hlen : length (calls (CallEvt v) (handlers_of s t))
                   = length (handlers_of s t))
      by apply length_fmap.
    split.
    + rewrite lookup_app_r by lia. by rewrite Hlen, Nat.sub_diag.
    + rewrite lookup_app_r by lia. rewrite Hlen.
      by replace (S (length (handlers_of s t)) - length (handlers_of s t))
        with 1 by lia.
Qed.

(** A pass calls only handlers of the copy it was given, with the
    arguments it was given. *)
Lemma dispatch_invokes a a' hs s (h : nat) :
  (h, a') ∈ (dispatch behaviour a hs s).1 → a' = a ∧ h ∈ hs.
Proof.
  intros Hin. pose proof (dispatch_prefix behaviour a hs s) as Hp.
  apply (elem_of_prefix _ _ _ Hin) in Hp.
  apply list_elem_of_fmap in Hp as (h' & [= -> ->] & Hh'). done.
Qed.

(** C8 (emitting the wildcard key).  [emit('*', v)] takes no special path
    and raises nothing of its own.  With no sequence under ['*'] it calls
    nothing and changes nothing.  Otherwise it is two passes, both over a
    copy of the sequence stored under ['*'] and over nothing else: the
    lookup of the type argument calls the handlers that are under ['*']
    when [emit] begins, each with [v] alone; if one of them throws, [emit]
    ends there; if not, the fixed second step calls the handlers that are
    under ['*'] in the state the first pass returned, each with
    [('*', v)].  So every call [emit] makes is of one of these two kinds;
    if [emit] throws, the value is what the handler called last threw;
    with handlers that leave the map and the arrays alone, the calls are a
    prefix of the ['*'] sequence twice over (all of it if no handler
    throws) and the registry is unchanged; and with handlers that do
    nothing at all the state is unchanged too. *)
Theorem emit_wildcard_key v s :
  let hs := handlers_of s WILDCARD in
  let r1 := dispatch behaviour (CallEvt v) hs s in
  let r := emit behaviour WILDCARD v s in
  (all s !! WILDCARD = None → r = ([], Returned s))
  ∧ (∀ e s1, r1.2 = Thrown e s1 → r = (r1.1, Thrown e s1))
  ∧ (∀ s1, r1.2 = Returned s1 →
           r = (calls (CallEvt v) hs
                  ++ (dispatch behaviour (CallWild WILDCARD v)
                        (handlers_of s1 WILDCARD) s1).1,
                (dispatch behaviour (CallWild WILDCARD v)
                   (handlers_of s1 WILDCARD) s1).2))
  ∧ (∀ h a, (h, a) ∈ r.1 →
            (a = CallEvt v ∧ h ∈ hs)
            ∨ (a = CallWild WILDCARD v
               ∧ ∃ s1, r1.2 = Returned s1 ∧ h ∈ handlers_of s1 WILDCARD))
  ∧ (∀ e sf, r.2 = Thrown e sf →
             ∃ h a sb, last r.1 = Some (h, a) ∧ behaviour h a sb = Thrown e sf)
  ∧ ((∀ h a s0, h ∈ hs → registry (final (behaviour h a s0)) = registry s0) →
     r.1 `prefix_of` calls (CallEvt v) hs ++ calls (CallWild WILDCARD v) hs
     ∧ registry (final r.2) = registry s
     ∧ (returned r.2 →
        r.1 = calls (CallEvt v) hs ++ calls (CallWild WILDCARD v) hs))
  ∧ ((∀ h a s0, h ∈ hs → behaviour h a s0 = Returned s0) →
     r = (calls (CallEvt v) hs ++ calls (CallWild WILDCARD v) hs, Returned s)).
Proof.
  simpl. split; [|split; [|split; [|split; [|split; [|split]]]]].
  - intros Hnone. rewrite emit_unfold. unfold handlers_of.
    rewrite Hnone. simpl. by rewrite Hnone.
  - intros e s1 H1. rewrite emit_unfold. simpl.
    destruct (dispatch behaviour (CallEvt v) (handlers_of s WILDCARD) s)
      as [tr1 o1]; simpl in *. by subst o1.
  - intros s1 H1. rewrite emit_unfold. simpl.
    pose proof (dispatch_returned behaviour (CallEvt v)
                  (handlers_of s WILDCARD) s) as Hr1.
    destruct (dispatch behaviour (CallEvt v) (handlers_of s WILDCARD) s)
      as [tr1 o1]; simpl in *. subst o1. by rewrite Hr1.
  - intros h a. rewrite emit_unfold. simpl.
    pose proof (dispatch_invokes (CallEvt v) a (handlers_of s WILDCARD) s h)
      as H1.
    destruct (dispatch behaviour (CallEvt v) (handlers_of s WILDCARD) s)
      as [tr1 [s1|e s1]]; simpl in *.
    + intros Hin. apply elem_of_app in Hin as [Hin|Hin]; [by left; apply H1|].
      right. apply dispatch_invokes in Hin as [-> Hh]. eauto.
    + intros Hin. left. by apply H1.
  - apply emit_thrown.
  - intros Hreg. rewrite emit_unfold. simpl.
    pose proof (dispatch_prefix behaviour (CallEvt v)
                  (handlers_of s WILDCARD) s) as Hp1.
    pose proof (dispatch_returned behaviour (CallEvt v)
                  (handlers_of s WILDCARD) s) as Hr1.
    pose proof (dispatch_preserves behaviour (λ s0, registry s0 = registry s)
                  (CallEvt v) (handlers_of s WILDCARD) s
                  (λ h s0 Hin Hs0, eq_trans (Hreg h _ s0 Hin) Hs0) eq_refl)
      as Hs1.
    destruct (dispatch behaviour (CallEvt v) (handlers_of s WILDCARD) s)
      as [tr1 [s1|e s1]]; simpl in *.
    + rewrite Hr1 by done.
      rewrite (handlers_of_registry s1 s WILDCARD Hs1).
      split; [apply prefix_app, dispatch_prefix|]. split.
      * apply (dispatch_preserves behaviour (λ s0, registry s0 = registry s));
          [|done].
        intros h s0 Hin Hs0. by rewrite Hreg.
      * intros Hr. by rewrite dispatch_returned.
    + split; [by apply prefix_app_r|]. by split.
  - intros Hinert. rewrite emit_unfold. simpl.
    rewrite dispatch_inert by (intros; by apply Hinert). simpl.
    by rewrite dispatch_inert by (intros; by apply Hinert).
Qed.

(** C9 (key-set monotonicity).  Provided the handlers themselves delete
    no key of the exposed map (handlers that only use [on], [off] and
    [emit] do not): [on] adds its key to the key set and removes none,
    [off] leaves the key set as it is, [emit] removes no key (and adds
    none unless a handler does), and so over any sequence of
    [on]/[off]/[emit] calls the key set only grows. *)
Theorem registry_keys_never_shrink :
  (∀ h a s0, dom (all s0) ⊆ dom (all (final (behaviour h a s0)))) →
  (∀ t h s, dom (all (on t h s)) = {[t]} ∪ dom (all s))
  ∧ (∀ t oh s, dom (all (off t oh s)) = dom (all s))
  ∧ (∀ t v s, dom (all s) ⊆ dom (all (final (emit behaviour t v s).2)))
  ∧ (∀ t v s,
       (∀ h a s0, dom (all (final (behaviour h a s0))) = dom (all s0)) →
       dom (all (final (emit behaviour t v s).2)) = dom (all s))
  ∧ (∀ cs s, dom (all s) ⊆ dom (all (run_calls behaviour cs s))).
Proof.
  intros Hh.
  assert (Hemit : ∀ t v s,
             dom (all s) ⊆ dom (all (final (emit behaviour t v s).2))).
  { intros t v s.
    apply (emit_preserves behaviour (λ s0, dom (all s) ⊆ dom (all s0)));
      [|done].
    intros h a s0 Hs0. etrans; [exact Hs0|apply Hh]. }
  split; [apply dom_all_on|]. split; [apply dom_all_off|].
  split; [exact Hemit|]. split.
  - intros t v s Heq.
    apply (emit_preserves behaviour (λ s0, dom (all s0) = dom (all s)));
      [|done].
    intros h a s0 Hs0. by rewrite Heq.
  - intros cs s.
    apply (run_calls_preserves behaviour (λ s0, dom (all s) ⊆ dom (all s0)));
      [|done].
    intros c s0 _ Hs0. etrans; [exact Hs0|].
    destruct c as [t h|t oh|t v]; simpl.
    + rewrite dom_all_on. apply union_subseteq_r.
    + by rewrite dom_all_off.
    + apply Hemit.
Qed.

(** C10 (emit leaves the registry unchanged).  If the handlers registered
    under [t] and under ['*'] do not change the map or any array when
    called by this [emit(t, v)], then after [emit] the map and every array
    are what they were before: [emit] itself writes to neither, its loops
    run over copies.  In particular every key has the handler sequence it
    had. *)
Theorem emit_leaves_registry_unchanged t v s :
  (∀ h s0, h ∈ handlers_of s t →
           registry (final (behaviour h (CallEvt v) s0)) = registry s0) →
  (∀ h s0, h ∈ handlers_of s WILDCARD →
           registry (final (behaviour h (CallWild t v) s0)) = registry s0) →
  registry (final (emit behaviour t v s).2) = registry s
  ∧ ∀ k, handlers_of (final (emit behaviour t v s).2) k = handlers_of s k.
Proof.
  intros Htype Hwild.
  assert (Hreg : registry (final (emit behaviour t v s).2) = registry s).
  { rewrite emit_unfold. simpl.
    pose proof (dispatch_preserves behaviour
                  (λ s0, registry s0 = registry s)
                  (CallEvt v) (handlers_of s t) s) as H1.
    destruct (dispatch behaviour (CallEvt v) (handlers_of s t) s)
      as [tr1 [s1|e s1]]; simpl in *.
    - assert (Hs1 : registry s1 = registry s).
      { apply H1; [|done]. intros h s0 Hin Hs0. by rewrite Htype. }
      apply (dispatch_preserves behaviour (λ s0, registry s0 = registry s));
        [|done].
      intros h s0 Hin Hs0. rewrite Hwild; [done|].
      by rewrite <- (handlers_of_registry s1 s WILDCARD Hs1).
    - apply H1; [|done]. intros h s0 Hin Hs0. by rewrite Htype. }
  split; [done|]. intros k. by apply handlers_of_registry.
Qed.
End Dispatch.

(** ** Removal *)

Section Removal.
Context {User : Type}.
Implicit Types (s : State User) (t k : EventType).

(** C5 (targeted removal).  On an array of legal length, [off(t, h)]
    leaves under [t] the old sequence without its first occurrence of [h]:
    when the sequence splits as [l1 ++ h :: l2] with [h] not in [l1], the
    result is [l1 ++ l2], so later occurrences of [h] (those of [l2])
    stay; when [h] does not occur, the whole state is unchanged.  The map
    itself is never touched. *)
Theorem off_removes_first_occurrence t (h : nat) s :
  (Z.of_nat (length (handlers_of s t)) ≤ MAX_ARRAY_LENGTH)%Z →
  handlers_of (off t (Some h) s) t
  = remove_first_occurrence h (handlers_of s t)
  ∧ (∀ l1 l2, handlers_of s t = l1 ++ h :: l2 → h ∉ l1 →
              handlers_of (off t (Some h) s) t = l1 ++ l2)
  ∧ (h ∉ handlers_of s t → off t (Some h) s = s)
  ∧ all (off t (Some h) s) = all s.
Proof.
  intros Hlen.
  assert (Hrem : handlers_of (off t (Some h) s) t
                 = remove_first_occurrence h (handlers_of s t)).
  { rewrite handlers_of_off_handler. by apply splice_indexOf. }
  split; [done|]. split; [|split].
  - intros l1 l2 Hsplit Hl1.
    by rewrite Hrem, Hsplit, remove_first_occurrence_first.
  - intros Habsent. revert Hlen Habsent. unfold off, handlers_of.
    destruct (all s !! t) as [l|] eqn:Ht; [|done].
    intros Hlen Habsent. destruct s as [m hp u]. simpl in *. f_equal.
    apply alter_id. intros hs Hhs. unfold array_at in *. simpl in *.
    rewrite Hhs in Hlen, Habsent. simpl in *.
    by rewrite splice_indexOf, remove_first_occurrence_absent.
  - unfold off. by destruct (all s !! t).
Qed.

(** C7 (full clear).  If [t] has a sequence, [off(t)] leaves [t] in the
    map, now with an empty sequence; the key set is the same, and the
    array [t] referred to before is not written to (the key is bound to a
    new, empty array).  If [t] has no sequence, [off(t)] changes nothing:
    in particular it does not create the key. *)
Theorem off_without_handler_clears t s :
  (∀ l, all s !! t = Some l →
        handlers_of (off t None s) t = []
        ∧ is_Some (all (off t None s) !! t)
        ∧ dom (all (off t None s)) = dom (all s)
        ∧ heap (off t None s) !! l = heap s !! l)
  ∧ (all s !! t = None → off t None s = s).
Proof.
  split.
  - intros l Ht. split; [apply handlers_of_off_clear|].
    split; [|split; [apply dom_all_off|]].
    + unfold off. rewrite Ht. simpl. rewrite lookup_insert_eq. eauto.
    + unfold off. rewrite Ht. simpl. apply lookup_insert_ne.
      intros Heq. apply (new_loc_unused s t). by rewrite Ht, Heq.
  - intros Ht. unfold off. by rewrite Ht.
Qed.
End Removal.

(** ** Handlers that register and unregister while [emit] runs *)

Section Snapshot.
Context {Payload Exn User : Type}.
Variable behaviour : nat → args Payload → State User → outcome Exn User.
Implicit Types (s : State User) (t k : EventType) (v : Payload).

(** A call [on(t, _)] or [off(t, _)]. *)
Definition targets t (c : call Payload) : Prop :=
  match c with
  | On k _ => k = t
  | Off k _ => k = t
  | Emit _ _ => False
  end.

(** Every call of every handler returns, and what it did to the map and
    the arrays is what a series of calls [on(t, _)] and [off(t, _)] does
    (any number, also none).  What it did to the state of the application
    is its own business. *)
Definition only_touches t : Prop :=
  ∀ h a s0, ∃ cs s1,
    Forall (targets t) cs
    ∧ behaviour h a s0 = Returned s1
    ∧ registry s1 = registry (run_calls behaviour cs s0).

(** The state reached from [s] by calling, in this order, the handlers of
    the invocations [tr], each with its arguments. *)
Definition run_handlers (tr : list (invocation Payload)) s : State User :=
  foldl (λ s0 i, final (behaviour i.1 i.2 s0)) s tr.

(** [emit] adds nothing to what the handlers it called did, and takes
    nothing back. *)
Lemma dispatch_run_handlers (a : args Payload) (hs : list nat) s :
  final (dispatch behaviour a hs s).2
  = run_handlers (dispatch behaviour a hs s).1 s.
Proof.
  revert s. induction hs as [|h hs IH]; intros s; simpl; [done|].
  destruct (behaviour h a s) as [s1|e s1] eqn:Hb; simpl.
  - rewrite IH. unfold run_handlers. simpl. by rewrite Hb.
  - unfold run_handlers. simpl. by rewrite Hb.
Qed.

Lemma emit_run_handlers t v s :
  final (emit behaviour t v s).2 = run_handlers (emit behaviour t v s).1 s.
Proof.
  rewrite emit_unfold. simpl.
  pose proof (dispatch_run_handlers (CallEvt v) (handlers_of s t) s) as H1.
  destruct (dispatch behaviour (CallEvt v) (handlers_of s t) s)
    as [tr1 [s1|e s1]]; simpl in *; [|done].
  rewrite dispatch_run_handlers. unfold run_handlers in *.
  by rewrite foldl_app, <- H1.
Qed.

Lemma shares_array_registry s1 s2 k1 k2 :
  registry s1 = registry s2 → shares_array s1 k1 k2 → shares_array s2 k1 k2.
Proof. unfold registry, shares_array. intros [= Ha _]. by rewrite Ha. Qed.

(** Such calls leave the wildcard sequence alone, as long as [t] is not
    the wildcard key and does not share its array. *)
Lemma targets_frame t cs s :
  t ≠ WILDCARD → ¬ shares_array s t WILDCARD → Forall (targets t) cs →
  ¬ shares_array (run_calls behaviour cs s) t WILDCARD
  ∧ handlers_of (run_calls behaviour cs s) WILDCARD = handlers_of s WILDCARD.
Proof.
  intros Ht Hs Hcs.
  apply (run_calls_preserves behaviour
           (λ s0, ¬ shares_array s0 t WILDCARD
                  ∧ handlers_of s0 WILDCARD = handlers_of s WILDCARD));
    [|done].
  intros c s0 Hin [Hs0 Heq].
  rewrite Forall_forall in Hcs. specialize (Hcs c Hin).
  destruct c as [k h|k oh|k v]; simpl in *; [subst k..|done].
  - split; [by apply on_not_shares|].
    by rewrite handlers_of_on_ne.
  - split; [by apply off_not_shares|].
    by rewrite handlers_of_off_ne.
Qed.

Lemma emit_isolated t v s :
  t ≠ WILDCARD → ¬ shares_array s t WILDCARD → only_touches t →
  ∃ s', emit behaviour t v s
        = (calls (CallEvt v) (handlers_of s t)
             ++ calls (CallWild t v) (handlers_of s WILDCARD), Returned s')
        ∧ ¬ shares_array s' t WILDCARD
        ∧ handlers_of s' WILDCARD = handlers_of s WILDCARD.
Proof.
  intros Ht Hs Hh.
  set (P := λ s0 : State User,
              ¬ shares_array s0 t WILDCARD
              ∧ handlers_of s0 WILDCARD = handlers_of s WILDCARD).
  assert (Hpres : ∀ h a s0, P s0 → P (final (behaviour h a s0))).
  { intros h a s0 [Hs0 Heq].
    destruct (Hh h a s0) as (cs & s1 & Hcs & -> & Hreg).
    simpl. destruct (targets_frame t cs s0 Ht Hs0 Hcs) as [Hs1 Heq1].
    split.
    - intros Hsh. apply Hs1. by apply (shares_array_registry s1).
    - rewrite (handlers_of_registry _ _ WILDCARD Hreg). congruence. }
  assert (Hret : returned (emit behaviour t v s).2).
  { apply emit_all_return. intros h a s0.
    by destruct (Hh h a s0) as (cs & s1 & _ & -> & _). }
  destruct (emit_returned behaviour t v s Hret) as (s1 & s2 & Hd & He).
  pose proof (dispatch_preserves behaviour P (CallEvt v) (handlers_of s t) s
                (λ h s0 _, Hpres h _ s0)) as H1.
  rewrite Hd in H1. destruct H1 as [_ Hw]; [done|]. simpl in Hw.
  pose proof (emit_preserves behaviour P t v s Hpres) as H2.
  rewrite He in H2. destruct H2 as [Hs2 Hw2]; [done|].
  exists s2. by rewrite He, Hw.
Qed.

(** C1, as amended (snapshot isolation).  Let [t] be a key other than
    ['*'] whose array is not also the array of ['*'], and let the handlers
    return, doing to the map and the arrays only what calls [on(t, _)] and
    [off(t, _)] do (to the state of the application they may do
    anything).  Then the handlers [emit(t, v)] invokes are exactly the
    sequence registered under [t], each with [v], followed by the sequence
    registered under ['*'], each with [(t, v)], both as they were when
    [emit] began.  The state [emit] leaves is the one these calls, made in
    this order from the state [emit] began in, produce, so every
    registration and removal the handlers made is in it, and none of them
    touched the wildcard sequence.  The next [emit(t, v)] takes the two
    sequences it invokes from that state. *)
Theorem emit_snapshot_isolation t v s :
  t ≠ WILDCARD → ¬ shares_array s t WILDCARD → only_touches t →
  let tr := calls (CallEvt v) (handlers_of s t)
              ++ calls (CallWild t v) (handlers_of s WILDCARD) in
  let s' := run_handlers tr s in
  let tr' := calls (CallEvt v) (handlers_of s' t)
               ++ calls (CallWild t v) (handlers_of s' WILDCARD) in
  emit behaviour t v s = (tr, Returned s')
  ∧ handlers_of s' WILDCARD = handlers_of s WILDCARD
  ∧ emit behaviour t v s' = (tr', Returned (run_handlers tr' s')).
Proof.
  intros Ht Hs Hh. simpl.
  destruct (emit_isolated t v s Ht Hs Hh) as (s1 & He & Hs1 & Hw1).
  pose proof (emit_run_handlers t v s) as Hf. rewrite He in Hf.
  simpl in Hf. subst s1.
  split; [done|]. split; [done|].
  destruct (emit_isolated t v _ Ht Hs1 Hh) as (s2 & He2 & _ & _).
  pose proof (emit_run_handlers t v
                (run_handlers
                   (calls (CallEvt v) (handlers_of s t)
                      ++ calls (CallWild t v) (handlers_of s WILDCARD)) s))
    as Hf2.
  rewrite He2 in Hf2. simpl in Hf2. by subst s2.
Qed.
End Snapshot.

(** ** Registration order *)

Section Order.
Context {Payload Exn User : Type}.
Variable behaviour : nat → args Payload → State User → outcome Exn User.
Implicit Types (s : State User) (t k : EventType) (v : Payload)
  (w : list nat).

(** A registry call that leaves the registrations [w] under [t] in place:
    any [on]; an [off] that names another key, or a handler not among
    [w]. *)
Definition keeps t w (c : call Payload) : Prop :=
  match c with
  | On _ _ => True
  | Off k (Some h) => k ≠ t ∨ h ∉ w
  | Off k None => k ≠ t
  | Emit _ _ => False
  end.

(** The handlers [w] are under [t] in this order, in an array of at most
    [n] elements. *)
Definition kept t w (n : nat) s : Prop :=
  NoAlias s ∧ w `sublist_of` handlers_of s t ∧ length (handlers_of s t) ≤ n.

Lemma keeps_call t w n s c :
  keeps t w c → (Z.of_nat n ≤ MAX_ARRAY_LENGTH)%Z →
  kept t w n s → kept t w (S n) (run_call behaviour s c).
Proof.
  intros Hc Hn (Hs & Hw & Hlen).
  destruct c as [k h|k [h|]|k v]; simpl in *; [| | |done].
  - split; [by apply on_NoAlias|].
    destruct (decide (k = t)) as [->|Hk].
    + rewrite handlers_of_on, length_app. simpl.
      split; [by apply sublist_inserts_r|lia].
    + rewrite handlers_of_on_ne by (by auto using NoAlias_not_shares).
      split; [done|lia].
  - split; [by apply off_NoAlias|].
    destruct (decide (k = t)) as [->|Hk].
    + destruct Hc as [?|Hh]; [done|].
      rewrite handlers_of_off_handler, splice_indexOf by lia.
      split; [by apply sublist_remove_first_occurrence|].
      pose proof (remove_first_occurrence_length h (handlers_of s t)). lia.
    + rewrite handlers_of_off_ne by (by auto using NoAlias_not_shares).
      split; [done|lia].
  - split; [by apply off_NoAlias|].
    rewrite handlers_of_off_ne by (by auto using NoAlias_not_shares).
    split; [done|lia].
Qed.

Lemma keeps_calls t w cs n s :
  Forall (keeps t w) cs →
  (Z.of_nat (n + length cs) ≤ MAX_ARRAY_LENGTH)%Z →
  kept t w n s → kept t w (n + length cs) (run_calls behaviour cs s).
Proof.
  unfold run_calls. revert n s.
  induction cs as [|c cs IH]; intros n s Hcs Hn Hk; simpl in *.
  - by rewrite Nat.add_0_r.
  - apply Forall_cons in Hcs as [Hc Hcs].
    replace (n + S (length cs)) with (S n + length cs) by lia.
    apply IH; [done|lia|]. apply keeps_call; [done|lia|done].
Qed.

(** A call made between or after the two registrations: a registry call
    that [keeps] them, or any [emit] (what the handlers it invokes may do
    is the subject of [handlers_keep]). *)
Definition interleaved t w (c : call Payload) : Prop :=
  match c with
  | Emit _ _ => True
  | _ => keeps t w c
  end.

(** No call of a handler removes a registration of [w] under [t]: whether
    it returns or throws, what it did to the map and the arrays is what at
    most [g] registry calls that keep [w] do. *)
Definition handlers_keep (g : nat) t w : Prop :=
  ∀ h a s0, ∃ cs,
    length cs ≤ g
    ∧ Forall (keeps t w) cs
    ∧ registry (final (behaviour h a s0))
      = registry (run_calls behaviour cs s0).

(** A bound on the number of elements the calls [cs], made from [s],
    append to arrays: one for a registry call, [g] for each handler an
    [emit] invokes. *)
Fixpoint pushes (g : nat) (cs : list (call Payload)) s : nat :=
  match cs with
  | [] => 0
  | c :: cs' =>
      match c with
      | Emit k x => length (emit behaviour k x s).1 * g
      | _ => 1
      end + pushes g cs' (run_call behaviour s c)
  end.

Lemma kept_registry t w n s1 s2 :
  registry s1 = registry s2 → kept t w n s1 → kept t w n s2.
Proof.
  intros Hreg (Hs & Hw & Hlen).
  rewrite (handlers_of_registry s1 s2 t Hreg) in Hw, Hlen.
  split; [|done]. unfold registry in Hreg. injection Hreg as Ha _.
  unfold NoAlias in *. by rewrite <- Ha.
Qed.

Lemma kept_mono t w n m s : n ≤ m → kept t w n s → kept t w m s.
Proof. intros Hnm (Hs & Hw & Hlen). split; [done|]. split; [done|lia]. Qed.

Lemma keeps_weaken t w w' (c : call Payload) :
  (∀ x, x ∈ w' → x ∈ w) → keeps t w c → keeps t w' c.
Proof.
  intros Hsub. destruct c as [k h|k [h|]|k x]; simpl; [done| |done|done].
  intros [Hk|Hh]; [by left|]. right. intros Hin. by apply Hh, Hsub.
Qed.

Lemma handlers_keep_weaken g t w w' :
  (∀ x, x ∈ w' → x ∈ w) → handlers_keep g t w → handlers_keep g t w'.
Proof.
  intros Hsub Hh h a s0. destruct (Hh h a s0) as (cs & Hlen & Hcs & Hreg).
  exists cs. split; [done|]. split; [|done].
  eapply Forall_impl; [exact Hcs|]. intros c. by apply keeps_weaken.
Qed.

(** One handler call keeps the registrations and appends at most [g]. *)
Lemma handler_kept g t w n h a s0 :
  handlers_keep g t w →
  (Z.of_nat (n + g) ≤ MAX_ARRAY_LENGTH)%Z →
  kept t w n s0 → kept t w (n + g) (final (behaviour h a s0)).
Proof.
  intros Hh Hn Hk. destruct (Hh h a s0) as (cs & Hlen & Hcs & Hreg).
  apply (kept_registry t w _ (run_calls behaviour cs s0)); [done|].
  apply (kept_mono t w (n + length cs)); [lia|].
  apply keeps_calls; [done|lia|done].
Qed.

Lemma dispatch_kept g t w (a : args Payload) (hs : list nat) n s0 :
  handlers_keep g t w →
  (Z.of_nat (n + length (dispatch behaviour a hs s0).1 * g)
   ≤ MAX_ARRAY_LENGTH)%Z →
  kept t w n s0 →
  kept t w (n + length (dispatch behaviour a hs s0).1 * g)
    (final (dispatch behaviour a hs s0).2).
Proof.
  intros Hh. revert n s0.
  induction hs as [|h hs IH]; intros n s0; simpl.
  - intros _ Hk. by rewrite Nat.add_0_r.
  - pose proof (handler_kept g t w n h a s0 Hh) as Hstep.
    destruct (behaviour h a s0) as [s1|e s1]; simpl in *.
    + intros Hn Hk.
      replace (n + (g + length (dispatch behaviour a hs s1).1 * g))
        with (n + g + length (dispatch behaviour a hs s1).1 * g) by lia.
      apply IH; [lia|]. apply Hstep; [lia|done].
    + intros Hn Hk. rewrite Nat.add_0_r in *. by apply Hstep.
Qed.

Lemma emit_kept g t w k x n s0 :
  handlers_keep g t w →
  (Z.of_nat (n + length (emit behaviour k x s0).1 * g) ≤ MAX_ARRAY_LENGTH)%Z →
  kept t w n s0 →
  kept t w (n + length (emit behaviour k x s0).1 * g)
    (final (emit behaviour k x s0).2).
Proof.
  intros Hh. rewrite emit_unfold. simpl.
  pose proof (dispatch_kept g t w (CallEvt x) (handlers_of s0 k) n s0 Hh)
    as H1.
  destruct (dispatch behaviour (CallEvt x) (handlers_of s0 k) s0)
    as [tr1 [s1|e s1]]; simpl in *; [|done].
  intros Hn Hk. rewrite length_app, Nat.mul_add_distr_r in *.
  rewrite Nat.add_assoc in *.
  apply dispatch_kept; [done|lia|]. apply H1; [lia|done].
Qed.

Lemma run_kept g t w cs n s0 :
  handlers_keep g t w →
  Forall (interleaved t w) cs →
  (Z.of_nat (n + pushes g cs s0) ≤ MAX_ARRAY_LENGTH)%Z →
  kept t w n s0 →
  kept t w (n + pushes g cs s0) (run_calls behaviour cs s0).
Proof.
  intros Hh. unfold run_calls. revert n s0.
  induction cs as [|c cs IH]; intros n s0 Hcs; simpl.
  - intros _ Hk. by rewrite Nat.add_0_r.
  - apply Forall_cons in Hcs as [Hc Hcs]. intros Hn Hk.
    rewrite Nat.add_assoc in *.
    apply IH; [done|done|]. clear IH.
    destruct c as [k h|k oh|k x]; simpl in *.
    + replace (n + 1) with (S n) by lia.
      apply (keeps_call t w n s0 (On k h)); [done|lia|done].
    + replace (n + 1) with (S n) by lia.
      apply (keeps_call t w n s0 (Off k oh)); [done|lia|done].
    + apply emit_kept; [done|lia|done].
Qed.

(** C3 (registration-order dispatch).  Register [h1] under [t], then
    [h2] under [t].  In between and afterwards any calls may be made:
    [on] with any key and handler, [emit] of any event, and every [off]
    except [off(t)], [off(t, h1)] and [off(t, h2)]; the handlers these
    [emit]s (and the final one) invoke may likewise register and remove
    what they like except these, each by at most [g] registry calls.  The
    registry has one array per key, and the arrays stay within the legal
    length.  Then an [emit(t, v)] in which no handler throws invokes
    [h1(v)] at some position and [h2(v)] at a later one: both get [v] as
    their only argument, [h1] first. *)
Theorem emit_registration_order t (h1 h2 : nat) v g mid post s :
  NoAlias s →
  handlers_keep g t [h1; h2] →
  Forall (interleaved t [h1]) mid → Forall (interleaved t [h1; h2]) post →
  let s1 := on t h1 s in
  let s2 := run_calls behaviour mid s1 in
  let s3 := on t h2 s2 in
  let s' := run_calls behaviour post s3 in
  (Z.of_nat (length (handlers_of s t) + 2 + pushes g mid s1 + pushes g post s3)
   ≤ MAX_ARRAY_LENGTH)%Z →
  returned (emit behaviour t v s').2 →
  ∃ i j, i < j
         ∧ (emit behaviour t v s').1 !! i = Some (h1, CallEvt v)
         ∧ (emit behaviour t v s').1 !! j = Some (h2, CallEvt v).
Proof.
  intros Hs Hh Hmid Hpost s1 s2 s3 s' Hlen Hret.
  set (n := length (handlers_of s t)) in *.
  assert (Hh1 : handlers_keep g t [h1]).
  { apply (handlers_keep_weaken g t [h1; h2]); [|done].
    intros x Hx. apply list_elem_of_singleton in Hx as ->.
    apply list_elem_of_here. }
  assert (H1 : kept t [h1] (S n) s1).
  { split; [by apply on_NoAlias|]. unfold s1.
    rewrite handlers_of_on, length_app.
    simpl. split; [by apply sublist_inserts_l|]. fold n. lia. }
  apply (run_kept g t [h1] mid) in H1; [|done|done|lia].
  fold s2 in H1. destruct H1 as (Hs2 & Hw2 & Hlen2).
  assert (H3 : kept t [h1; h2] (S (S n + pushes g mid s1)) s3).
  { split; [by apply on_NoAlias|]. unfold s3.
    rewrite handlers_of_on, length_app.
    simpl. split; [|lia]. by apply (sublist_app [h1] _ [h2] [h2]). }
  apply (run_kept g t [h1; h2] post) in H3; [|done|done|lia].
  fold s' in H3. destruct H3 as (_ & Hw4 & _).
  destruct (sublist_pair_lookup _ _ _ Hw4) as (i & j & Hij & Hi & Hj).
  destruct (emit_returned behaviour t v s' Hret) as (sa & sb & _ & ->).
  simpl. exists i, j. split; [done|].
  assert (Hlook : ∀ m h, handlers_of s' t !! m = Some h →
            (calls (CallEvt v) (handlers_of s' t)
               ++ calls (CallWild t v) (handlers_of sa WILDCARD)) !! m
            = Some (h, CallEvt v)).
  { intros m h Hm. apply lookup_app_l_Some. unfold calls.
    by rewrite list_lookup_fmap, Hm. }
  split; by apply Hlook.
Qed.
End Order.

(** ** Concrete runs *)

Definition foo : EventType := Str "foo".

(** A fresh emitter, [mitt()]; the user state counts handler calls. *)
Definition empty_registry : State nat := mkState ∅ ∅ 0.

(** ["foo"] has handlers 1 and 3, ['*'] has handler 7. *)
Definition foo_registry : State nat :=
  on WILDCARD 7 (on foo 3 (on foo 1 empty_registry)).

(** Handler 1 unregisters itself from ["foo"] and registers handler 9
    there; the other handlers do nothing. *)
Definition self_removing (h : nat) (a : args nat) (s : State nat)
  : outcome string nat :=
  match h with
  | 1 => Returned (on foo 9 (off foo (Some 1) s))
  | _ => Returned s
  end.

(** One more handler call counted; the registry as it was. *)
Definition bump (s : State nat) : State nat :=
  mkState (all s) (heap s) (S (user s)).

(** Every handler counts its call; handler 2 then throws. *)
Definition counting (h : nat) (a : args nat) (s : State nat)
  : outcome string nat :=
  match h with
  | 2 => Thrown "boom" (bump s)
  | _ => Returned (bump s)
  end.

(** Handler 1 registers handler 2 under the key [k]. *)
Definition registering (k : EventType) (h : nat) (a : args nat) (s : State nat)
  : outcome string nat :=
  match h with
  | 1 => Returned (on k 2 s)
  | _ => Returned s
  end.

(** ['*'] alone, with handler 1. *)
Definition wildcard_registry : State nat := on WILDCARD 1 empty_registry.

(** A caller-supplied map in which ["foo"] and ['*'] are one array,
    holding handler 1. *)
Definition shared_registry : State nat :=
  mkState {[foo := 0; WILDCARD := 0]} {[0 := [1]]} 0.

Lemma registering_only_touches k : only_touches (registering k) k.
Proof.
  intros h a s0. destruct h as [|[|h]];
    [exists [], s0|exists [On k 2], (on k 2 s0)|exists [], s0];
    (split; [by repeat constructor|done]).
Qed.

(** C1 fails as stated, at two inputs.  (a) [emit('*', 0)] where the
    handler under ['*'] calls [on('*', h2)]: the sequence under ['*'] was
    [[1]] when [emit] began, yet handler 2 is invoked by this very [emit],
    in its second pass.  (b) [emit("foo", 0)] on a map whose keys ["foo"]
    and ['*'] share one array, where the handler calls [on("foo", h2)]:
    again handler 2, pushed during the first pass, is invoked in the
    second.  In both, the handlers only call [on(t, _)] for the emitted
    key [t]. *)
Lemma emit_snapshot_counterexample :
  (only_touches (registering WILDCARD) WILDCARD
   ∧ handlers_of wildcard_registry WILDCARD = [1]
   ∧ (emit (registering WILDCARD) WILDCARD 0 wildcard_registry).1
     = [(1, CallEvt 0); (1, CallWild WILDCARD 0); (2, CallWild WILDCARD 0)]
   ∧ (emit (registering WILDCARD) WILDCARD 0 wildcard_registry).1
     ≠ calls (CallEvt 0) (handlers_of wildcard_registry WILDCARD)
       ++ calls (CallWild WILDCARD 0) (handlers_of wildcard_registry WILDCARD))
  ∧ (only_touches (registering foo) foo
     ∧ handlers_of shared_registry foo = [1]
     ∧ handlers_of shared_registry WILDCARD = [1]
     ∧ (emit (registering foo) foo 0 shared_registry).1
       = [(1, CallEvt 0); (1, CallWild foo 0); (2, CallWild foo 0)]
     ∧ (emit (registering foo) foo 0 shared_registry).1
       ≠ calls (CallEvt 0) (handlers_of shared_registry foo)
         ++ calls (CallWild foo 0) (handlers_of shared_registry WILDCARD)).
Proof.
  split.
  - split; [apply registering_only_touches|].
    split; [by vm_compute|]. split; [by vm_compute|]. by vm_compute.
  - split; [apply registering_only_touches|].
    split; [by vm_compute|]. split; [by vm_compute|].
    split; [by vm_compute|]. by vm_compute.
Qed.

(** Handler 1 is a handler for one event: it counts its call, unregisters
    itself from ["foo"] and registers handler 9 there.  The other handlers
    count their call. *)
Definition once_then_nine (h : nat) (a : args nat) (s : State nat)
  : outcome string nat :=
  match h with
  | 1 => Returned (bump (on foo 9 (off foo (Some 1) s)))
  | _ => Returned (bump s)
  end.

Lemma once_then_nine_only_touches : only_touches once_then_nine foo.
Proof.
  intros h a s0. destruct h as [|[|h]];
    [exists [], (bump s0)
    |exists [Off foo (Some 1); On foo 9],
       (bump (on foo 9 (off foo (Some 1) s0)))
    |exists [], (bump s0)];
    (split; [by repeat constructor|done]).
Qed.

Lemma foo_registry_not_shared : ¬ shares_array foo_registry foo WILDCARD.
Proof. intros (l & Hfoo & Hwild). vm_compute in Hfoo, Hwild. congruence. Qed.

(** The state a first [emit("foo", 5)] leaves [foo_registry] in. *)
Definition after_first_emit : State nat :=
  run_handlers once_then_nine
    (calls (CallEvt 5) (handlers_of foo_registry foo)
       ++ calls (CallWild foo 5) (handlers_of foo_registry WILDCARD))
    foo_registry.

Lemma emit_snapshot_isolation_witness :
  foo ≠ WILDCARD
  ∧ ¬ shares_array foo_registry foo WILDCARD
  ∧ only_touches once_then_nine foo
  ∧ emit once_then_nine foo 5 foo_registry
    = (calls (CallEvt 5) (handlers_of foo_registry foo)
         ++ calls (CallWild foo 5) (handlers_of foo_registry WILDCARD),
       Returned after_first_emit)
  ∧ handlers_of after_first_emit WILDCARD = handlers_of foo_registry WILDCARD
  ∧ emit once_then_nine foo 5 after_first_emit
    = (calls (CallEvt 5) (handlers_of after_first_emit foo)
         ++ calls (CallWild foo 5) (handlers_of after_first_emit WILDCARD),
       Returned
         (run_handlers once_then_nine
            (calls (CallEvt 5) (handlers_of after_first_emit foo)
               ++ calls (CallWild foo 5)
                    (handlers_of after_first_emit WILDCARD))
            after_first_emit)).
Proof.
  assert (Hkey : foo ≠ WILDCARD) by done.
  exact (conj Hkey
           (conj foo_registry_not_shared
              (conj once_then_nine_only_touches
                 (emit_snapshot_isolation once_then_nine foo 5 foo_registry
                    Hkey foo_registry_not_shared
                    once_then_nine_only_touches)))).
Defined.

(** The same run in figures: all three handlers of the first [emit] were
    called and counted, handler 1 among them; afterwards ["foo"] holds 3
    and 9, and the second [emit] calls these. *)
Example emit_once_handler_run :
  (emit once_then_nine foo 5 foo_registry).1
  = [(1, CallEvt 5); (3, CallEvt 5); (7, CallWild foo 5)]
  ∧ handlers_of after_first_emit foo = [3; 9]
  ∧ user after_first_emit = 3
  ∧ (emit once_then_nine foo 5 after_first_emit).1
    = [(3, CallEvt 5); (9, CallEvt 5); (7, CallWild foo 5)].
Proof. by vm_compute. Qed.

(** The run behind the witness: handler 1 is still called by the [emit]
    during which it removes itself, handler 9 is not; the next [emit] calls
    9 and no longer 1. *)
Example emit_self_removal :
  let r := emit self_removing foo 5 foo_registry in
  r.1 = [(1, CallEvt 5); (3, CallEvt 5); (7, CallWild foo 5)]
  ∧ handlers_of (final r.2) foo = [3; 9]
  ∧ (emit self_removing foo 5 (final r.2)).1
    = [(3, CallEvt 5); (9, CallEvt 5); (7, CallWild foo 5)].
Proof. by vm_compute. Qed.

(** *** Dispatch order and exceptions *)

Definition bar : EventType := Str "bar".

(** The wildcard handler is called last whether it was registered after
    the handlers of ["foo"] or before them; [emit] of the payload 5 gives
    each handler of ["foo"] the argument [5] and the wildcard handler
    [("foo", 5)]. *)
Example emit_wildcard_after_either_order :
  (emit counting foo 5 (on WILDCARD 7 (on foo 3 empty_registry))).1
  = [(3, CallEvt 5); (7, CallWild foo 5)]
  ∧ (emit counting foo 5 (on foo 3 (on WILDCARD 7 empty_registry))).1
    = [(3, CallEvt 5); (7, CallWild foo 5)].
Proof. by vm_compute. Qed.

(** ["foo"] has handlers 5, 2, 3 and ['*'] has 7: handler 2 throws. *)
Definition throwing_registry : State nat :=
  on WILDCARD 7 (on foo 3 (on foo 2 (on foo 5 empty_registry))).

(** ["foo"] has handler 5 and ['*'] has 7, 2, 8: handler 2 throws. *)
Definition wild_throwing_registry : State nat :=
  on WILDCARD 8 (on WILDCARD 2 (on WILDCARD 7 (on foo 5 empty_registry))).

Lemma emit_handler_exception_witness :
  emit counting foo 0 throwing_registry
  = (calls (CallEvt 0) ([5] ++ [2]),
     Thrown "boom" (bump (bump throwing_registry)))
  ∧ emit counting foo 0 wild_throwing_registry
    = (calls (CallEvt 0) (handlers_of wild_throwing_registry foo)
         ++ calls (CallWild foo 0) ([7] ++ [2]),
       Thrown "boom" (bump (bump (bump wild_throwing_registry)))).
Proof.
  split.
  - apply (proj1 (emit_handler_exception counting foo 0 throwing_registry)
             [5] 2 [3] "boom" (bump throwing_registry));
      by vm_compute.
  - apply (proj2 (emit_handler_exception counting foo 0 wild_throwing_registry)
             (bump wild_throwing_registry) [7] 2 [8] "boom"
             (bump (bump wild_throwing_registry)));
      by vm_compute.
Defined.

(** The same two runs, spelt out: handlers 3 and 7, resp. 8, are never
    called, and the calls counted before the exception stay counted. *)
Example emit_handler_exception_runs :
  (emit counting foo 0 throwing_registry).1 = [(5, CallEvt 0); (2, CallEvt 0)]
  ∧ user (final (emit counting foo 0 throwing_registry).2) = 2
  ∧ (emit counting foo 0 wild_throwing_registry).1
    = [(5, CallEvt 0); (7, CallWild foo 0); (2, CallWild foo 0)]
  ∧ user (final (emit counting foo 0 wild_throwing_registry).2) = 3.
Proof. by vm_compute. Qed.

(** *** Registration order *)

Lemma empty_registry_NoAlias : NoAlias empty_registry.
Proof.
  intros k1 k2 l Hk. unfold empty_registry in Hk. simpl in Hk.
  by rewrite lookup_empty in Hk.
Qed.

Definition calls_between : list (call nat) :=
  [On foo 1; Emit foo 0; Off bar None; Off foo (Some 9)].

Definition calls_after : list (call nat) :=
  [Emit foo 5; On WILDCARD 7; On foo 4].

Lemma calls_between_interleaved : Forall (interleaved foo [4]) calls_between.
Proof.
  repeat apply Forall_cons_2; try apply Forall_nil; simpl; try done.
  right. by intros ?%list_elem_of_singleton.
Qed.

Lemma calls_after_interleaved : Forall (interleaved foo [4; 6]) calls_after.
Proof.
  repeat apply Forall_cons_2; try apply Forall_nil; simpl; done.
Qed.

Lemma once_then_nine_keeps : handlers_keep once_then_nine 2 foo [4; 6].
Proof.
  intros h a s0. destruct h as [|[|h]];
    [exists []|exists [Off foo (Some 1); On foo 9]|exists []];
    (split; [simpl; lia|]); (split; [|done]);
    repeat apply Forall_cons_2; try apply Forall_nil; simpl; try done.
  right. intros Hin. apply elem_of_cons in Hin as [?|Hin]; [done|].
  by apply list_elem_of_singleton in Hin.
Qed.

Lemma emit_registration_order_witness :
  NoAlias empty_registry
  ∧ handlers_keep once_then_nine 2 foo [4; 6]
  ∧ Forall (interleaved foo [4]) calls_between
  ∧ Forall (interleaved foo [4; 6]) calls_after
  ∧ ∃ i j, i < j
      ∧ (emit once_then_nine foo 5
           (run_calls once_then_nine calls_after
              (on foo 6 (run_calls once_then_nine calls_between
                           (on foo 4 empty_registry))))).1 !! i
        = Some (4, CallEvt 5)
      ∧ (emit once_then_nine foo 5
           (run_calls once_then_nine calls_after
              (on foo 6 (run_calls once_then_nine calls_between
                           (on foo 4 empty_registry))))).1 !! j
        = Some (6, CallEvt 5).
Proof.
  split; [exact empty_registry_NoAlias|].
  split; [exact once_then_nine_keeps|].
  split; [exact calls_between_interleaved|].
  split; [exact calls_after_interleaved|].
  apply (emit_registration_order once_then_nine foo 4 6 5 2 calls_between
           calls_after empty_registry empty_registry_NoAlias
           once_then_nine_keeps calls_between_interleaved
           calls_after_interleaved);
    by vm_compute.
Defined.

(** The run: the [emit] between the two registrations calls handler 4 and
    the one-event handler 1, which removes itself and registers 9; 9 is
    removed again, 6 registered, another [emit] made, and 4 registered
    once more.  The last [emit] calls 4 before 6. *)
Example emit_registration_order_run :
  (emit once_then_nine foo 0 (on foo 1 (on foo 4 empty_registry))).1
  = [(4, CallEvt 0); (1, CallEvt 0)]
  ∧ handlers_of (run_calls once_then_nine calls_between
                   (on foo 4 empty_registry)) foo
    = [4]
  ∧ (emit once_then_nine foo 5
       (run_calls once_then_nine calls_after
          (on foo 6 (run_calls once_then_nine calls_between
                       (on foo 4 empty_registry))))).1
    = [(4, CallEvt 5); (6, CallEvt 5); (4, CallEvt 5); (7, CallWild foo 5)].
Proof. by vm_compute. Qed.

(** *** Duplicates and removal *)

(** ["foo"] has handlers 1, 2, 1. *)
Definition duplicate_registry : State nat :=
  on foo 1 (on foo 2 (on foo 1 empty_registry)).

Example on_twice_run :
  handlers_of (on foo 3 (on foo 3 empty_registry)) foo = [3; 3]
  ∧ (emit counting foo 5 (on foo 3 (on foo 3 empty_registry))).1
    = [(3, CallEvt 5); (3, CallEvt 5)]
  ∧ user (final (emit counting foo 5 (on foo 3 (on foo 3 empty_registry))).2)
    = 2.
Proof. by vm_compute. Qed.

Lemma off_removes_first_occurrence_witness :
  (Z.of_nat (length (handlers_of duplicate_registry foo)) ≤ MAX_ARRAY_LENGTH)%Z
  ∧ handlers_of (off foo (Some 1) duplicate_registry) foo
    = remove_first_occurrence 1 (handlers_of duplicate_registry foo)
  ∧ (∀ l1 l2, handlers_of duplicate_registry foo = l1 ++ 1 :: l2 → 1 ∉ l1 →
              handlers_of (off foo (Some 1) duplicate_registry) foo = l1 ++ l2)
  ∧ (1 ∉ handlers_of duplicate_registry foo →
     off foo (Some 1) duplicate_registry = duplicate_registry)
  ∧ all (off foo (Some 1) duplicate_registry) = all duplicate_registry.
Proof.
  assert (Hlen : (Z.of_nat (length (handlers_of duplicate_registry foo))
                  ≤ MAX_ARRAY_LENGTH)%Z) by (by vm_compute).
  exact (conj Hlen
           (off_removes_first_occurrence foo 1 duplicate_registry Hlen)).
Defined.

(** Removing handler 1 from [1, 2, 1] leaves [2, 1]; removing a handler
    that is not there, or from a key that is not there, changes nothing. *)
Example off_runs :
  handlers_of (off foo (Some 1) duplicate_registry) foo = [2; 1]
  ∧ off foo (Some 7) duplicate_registry = duplicate_registry
  ∧ off bar (Some 1) duplicate_registry = duplicate_registry.
Proof. by vm_compute. Qed.

(** The idiom at work: [indexOf] gives [-1], [>>> 0] turns it into
    [4294967295], and [splice] from there deletes nothing. *)
Example splice_not_found :
  indexOf 4 [1; 2; 3] = (-1)%Z
  ∧ to_uint32 (indexOf 4 [1; 2; 3]) = 4294967295%Z
  ∧ splice (to_uint32 (indexOf 4 [1; 2; 3])) 1 [1; 2; 3] = [1; 2; 3].
Proof. by vm_compute. Qed.

Lemma off_without_handler_clears_witness :
  all foo_registry !! foo = Some 0
  ∧ (handlers_of (off foo None foo_registry) foo = []
     ∧ is_Some (all (off foo None foo_registry) !! foo)
     ∧ dom (all (off foo None foo_registry)) = dom (all foo_registry)
     ∧ heap (off foo None foo_registry) !! 0 = heap foo_registry !! 0)
  ∧ all foo_registry !! bar = None
  ∧ off bar None foo_registry = foo_registry.
Proof.
  assert (Hfoo : all foo_registry !! foo = Some 0) by (by vm_compute).
  assert (Hbar : all foo_registry !! bar = None) by (by vm_compute).
  exact (conj Hfoo
           (conj (proj1 (off_without_handler_clears foo foo_registry) 0 Hfoo)
              (conj Hbar
                 (proj2 (off_without_handler_clears bar foo_registry) Hbar)))).
Defined.

(** After [off("foo")] nothing under ["foo"] is called, the old array
    still holds [1, 3], and a handler registered afterwards is called. *)
Example off_clear_run :
  (emit counting foo 5 (off foo None foo_registry)).1 = [(7, CallWild foo 5)]
  ∧ heap (off foo None foo_registry) !! 0 = Some [1; 3]
  ∧ (emit counting foo 5 (on foo 4 (off foo None foo_registry))).1
    = [(4, CallEvt 5); (7, CallWild foo 5)].
Proof. by vm_compute. Qed.

(** *** The wildcard key as emitted type *)

(** [emit('*', 5)] calls the handler under ['*'] twice: once as a handler
    of the emitted type, once as a wildcard handler. *)
Example emit_wildcard_key_run :
  (emit counting WILDCARD 5 foo_registry).1
  = [(7, CallEvt 5); (7, CallWild WILDCARD 5)]
  ∧ emit counting WILDCARD 5 (on foo 3 empty_registry)
    = ([], Returned (on foo 3 empty_registry)).
Proof. by vm_compute. Qed.

(** *** Keys and frame *)

Lemma self_removing_keeps_keys (h : nat) (a : args nat) (s0 : State nat) :
  dom (all s0) ⊆ dom (all (final (self_removing h a s0))).
Proof.
  destruct h as [|[|h]]; simpl; [done| |done].
  rewrite dom_all_on, dom_all_off. apply union_subseteq_r.
Qed.

Lemma registry_keys_never_shrink_witness :
  (∀ h a s0, dom (all s0) ⊆ dom (all (final (self_removing h a s0))))
  ∧ dom (all foo_registry)
    ⊆ dom (all (run_calls self_removing
                  [Emit foo 5; Off foo None; On bar 4; Off WILDCARD (Some 7)]
                  foo_registry)).
Proof.
  split; [exact self_removing_keeps_keys|].
  apply (registry_keys_never_shrink self_removing self_removing_keeps_keys).
Defined.

Lemma counting_keeps_registry (h : nat) (a : args nat) (s0 : State nat) :
  registry (final (counting h a s0)) = registry s0.
Proof. by destruct h as [|[|[|h]]]. Qed.

Lemma emit_leaves_registry_unchanged_witness :
  (∀ h s0, h ∈ handlers_of foo_registry foo →
           registry (final (counting h (CallEvt 5) s0)) = registry s0)
  ∧ (∀ h s0, h ∈ handlers_of foo_registry WILDCARD →
             registry (final (counting h (CallWild foo 5) s0)) = registry s0)
  ∧ registry (final (emit counting foo 5 foo_registry).2)
    = registry foo_registry
  ∧ ∀ k, handlers_of (final (emit counting foo 5 foo_registry).2) k
         = handlers_of foo_registry k.
Proof.
  assert (Htype : ∀ h s0, h ∈ handlers_of foo_registry foo →
            registry (final (counting h (CallEvt 5) s0)) = registry s0)
    by (intros h s0 _; apply counting_keeps_registry).
  assert (Hwild : ∀ h s0, h ∈ handlers_of foo_registry WILDCARD →
            registry (final (counting h (CallWild foo 5) s0)) = registry s0)
    by (intros h s0 _; apply counting_keeps_registry).
  exact (conj Htype
           (conj Hwild
              (emit_leaves_registry_unchanged counting foo 5 foo_registry
                 Htype Hwild))).
Defined.

(** All three handlers ran, and the registry is what it was. *)
Example emit_frame_run :
  user (final (emit counting foo 5 foo_registry).2) = 3
  ∧ registry (final (emit counting foo 5 foo_registry).2)
    = registry foo_registry.
Proof. by vm_compute. Qed.

(** * Further properties of the emitter *)

(** ** Construction:  [mitt(all?)] *)

(** [all = all || new Map()]: a [Map] object is truthy, so a map the caller
    passes is taken as it is; without one the emitter starts from a new,
    empty map. *)
Definition mitt (all : option (gmap EventType nat)) : gmap EventType nat :=
  match all with
  | Some m => m
  | None => ∅
  end.

Section Construction.
Context {Payload Exn User : Type}.
Variable behaviour : nat → args Payload → State User → outcome Exn User.
Implicit Types (s : State User) (t k : EventType) (v : Payload).

(** The loop calls only handlers of the copy, with the arguments of the
    pass. *)
Lemma dispatch_elem_of (a a' : args Payload) (hs : list nat) s (h : nat) :
  (h, a') ∈ (dispatch behaviour a hs s).1 → a' = a ∧ h ∈ hs.
Proof.
  intros Hin.
  pose proof (dispatch_prefix behaviour a hs s) as Hp.
  apply (elem_of_prefix _ _ _ Hin) in Hp.
  apply list_elem_of_fmap in Hp as (h' & [= -> ->] & Hh'). done.
Qed.

(** X1 (an emitter created without a map).  Whatever arrays and
    application state exist, on the emitter [mitt()] every [emit] calls no
    handler and changes nothing, every [off] changes nothing, no two keys
    share an array, and a first [on(t, h)] leaves [t] as the only key, with
    the sequence [[h]]. *)
Theorem mitt_without_map (hp : gmap nat (list nat)) (u : User) :
  let s := mkState (mitt None) hp u in
  (∀ t v, emit behaviour t v s = ([], Returned s))
  ∧ (∀ t oh, off t oh s = s)
  ∧ NoAlias s
  ∧ (∀ t h, handlers_of (on t h s) t = [h]
            ∧ dom (all (on t h s)) = {[t]}).
Proof.
  simpl. split; [|split; [|split]].
  - intros t v. rewrite emit_unfold. unfold handlers_of. simpl.
    rewrite lookup_empty. simpl. by rewrite lookup_empty.
  - intros t oh. unfold off. simpl. by rewrite lookup_empty.
  - intros k1 k2 l Hk. simpl in Hk. by rewrite lookup_empty in Hk.
  - intros t h. split.
    + rewrite handlers_of_on. unfold handlers_of. simpl.
      by rewrite lookup_empty.
    + rewrite dom_all_on. simpl. rewrite dom_empty_L. apply (right_id_L ∅ (∪)).
Qed.

(** ** [emit]: which handlers it calls, and with what *)

(** X2 (an event with no handler of its own).  If nothing is registered
    under [t] (the key is absent, or its sequence is empty), [emit(t, v)]
    is exactly the pass over the wildcard sequence: every call it makes is
    [h(t, v)] for a handler [h] registered under ['*'], so wildcard handlers
    see events of types nobody registered for; and if the wildcard sequence
    is empty too, [emit] calls nothing and changes nothing. *)
Theorem emit_without_type_handlers t v s :
  handlers_of s t = [] →
  emit behaviour t v s
  = dispatch behaviour (CallWild t v) (handlers_of s WILDCARD) s
  ∧ (∀ h a, (h, a) ∈ (emit behaviour t v s).1 →
            a = CallWild t v ∧ h ∈ handlers_of s WILDCARD)
  ∧ (handlers_of s WILDCARD = [] → emit behaviour t v s = ([], Returned s)).
Proof.
  intros Ht.
  assert (He : emit behaviour t v s
               = dispatch behaviour (CallWild t v) (handlers_of s WILDCARD) s).
  { rewrite emit_unfold, Ht. simpl.
    by destruct (dispatch behaviour (CallWild t v) (handlers_of s WILDCARD) s). }
  split; [done|]. split.
  - intros h a Hin. rewrite He in Hin. by apply dispatch_elem_of in Hin.
  - intros Hw. by rewrite He, Hw.
Qed.

(** X3 ([emit] calls only what is registered, with only its own
    arguments).  Every call [emit(t, v)] makes is either [h(v)] for a
    handler [h] that was in the sequence under [t] when [emit] began, or
    [h(t, v)] for a handler that is in the sequence under ['*'] in the state
    the type-matched pass returned.  This holds whatever the handlers do:
    a handler registered under [t] while [emit] runs is not called with
    [v] by this [emit], and no handler gets another payload or type. *)
Theorem emit_calls_only_registered t v s h a :
  (h, a) ∈ (emit behaviour t v s).1 →
  (a = CallEvt v ∧ h ∈ handlers_of s t)
  ∨ (a = CallWild t v
     ∧ ∃ s1, (dispatch behaviour (CallEvt v) (handlers_of s t) s).2
             = Returned s1
             ∧ h ∈ handlers_of s1 WILDCARD).
Proof.
  rewrite emit_unfold. simpl.
  pose proof (dispatch_elem_of (CallEvt v) a (handlers_of s t) s h) as H1.
  destruct (dispatch behaviour (CallEvt v) (handlers_of s t) s)
    as [tr1 [s1|e s1]]; simpl in *.
  - intros Hin. apply elem_of_app in Hin as [Hin|Hin]; [by left; apply H1|].
    right. apply dispatch_elem_of in Hin as [-> Hh]. eauto.
  - intros Hin. left. by apply H1.
Qed.

(** X4 ([emit] has no failure of its own).  For every key: if [emit]
    throws, the value is the one thrown by the handler it called last; and
    if no handler ever throws, [emit] returns.  The missing key, the empty
    sequence and the wildcard key as type are no errors. *)
Theorem emit_throws_only_handler_exceptions t v s :
  (∀ e sf, (emit behaviour t v s).2 = Thrown e sf →
           ∃ h a sb, last (emit behaviour t v s).1 = Some (h, a)
                     ∧ behaviour h a sb = Thrown e sf)
  ∧ ((∀ h a s0, returned (behaviour h a s0)) →
     returned (emit behaviour t v s).2).
Proof.
  split; [apply emit_thrown|apply emit_all_return].
Qed.
End Construction.


(** ** Registering and removing: how [on] and [off] compose *)

Section ArrayRemoval.
Context {A : Type} `{EqDecision A}.

Lemma remove_first_occurrence_app_l (x : A) (l1 l2 : list A) :
  x ∈ l1 →
  remove_first_occurrence x (l1 ++ l2) = remove_first_occurrence x l1 ++ l2.
Proof.
  induction l1 as [|y l1 IH]; intros Hx; simpl.
  - by apply elem_of_nil in Hx.
  - destruct (decide (y = x)); [done|].
    apply elem_of_cons in Hx as [->|Hx]; [done|]. by rewrite IH.
Qed.

Lemma remove_first_occurrence_snoc (x : A) (l : list A) :
  x ∉ l → remove_first_occurrence x (l ++ [x]) = l.
Proof.
  intros Hx. rewrite remove_first_occurrence_first by done. apply app_nil_r.
Qed.
End ArrayRemoval.

Section Composition.
Context {User : Type}.
Implicit Types (s : State User) (t k : EventType) (l : nat).

(** X7 ([on] then [off] of the same handler).  On an array with room for
    one more element: if [h] was not registered under [t], [on(t, h)]
    followed by [off(t, h)] gives back the sequence [t] had, and the very
    state when [t] had an array; if [h] was registered already, it is the
    earlier registration that goes and the new one stays, at the end.  In
    both cases [t] is a key of the map afterwards, also when [on] created
    it: [off] leaves an empty sequence behind, not a missing key. *)
Theorem on_then_off t (h : nat) s :
  (Z.of_nat (length (handlers_of s t)) < MAX_ARRAY_LENGTH)%Z →
  (h ∉ handlers_of s t →
   handlers_of (off t (Some h) (on t h s)) t = handlers_of s t)
  ∧ (h ∈ handlers_of s t →
     handlers_of (off t (Some h) (on t h s)) t
     = remove_first_occurrence h (handlers_of s t) ++ [h])
  ∧ is_Some (all (off t (Some h) (on t h s)) !! t)
  ∧ (∀ l hs, all s !! t = Some l → heap s !! l = Some hs → h ∉ hs →
             off t (Some h) (on t h s) = s).
Proof.
  intros Hlen.
  assert (Hseq : handlers_of (off t (Some h) (on t h s)) t
                 = remove_first_occurrence h (handlers_of s t ++ [h])).
  { rewrite handlers_of_off_handler, handlers_of_on.
    apply splice_indexOf. rewrite length_app. simpl.
    unfold MAX_ARRAY_LENGTH in *. lia. }
  split; [|split; [|split]].
  - intros Hh. by rewrite Hseq, remove_first_occurrence_snoc.
  - intros Hh. by rewrite Hseq, remove_first_occurrence_app_l.
  - apply elem_of_dom. rewrite dom_all_off, dom_all_on.
    apply elem_of_union_l. by apply elem_of_singleton.
  - intros l hs Ht Hhs Hh.
    assert (Hof : handlers_of s t = hs).
    { unfold handlers_of, array_at. by rewrite Ht, Hhs. }
    rewrite Hof in Hlen.
    unfold on. rewrite Ht. unfold off. simpl. rewrite Ht.
    destruct s as [m hp u]. simpl in *. f_equal.
    rewrite alter_insert_eq. unfold array_at. simpl. rewrite Hhs. simpl.
    unfold push. rewrite splice_indexOf.
    + rewrite remove_first_occurrence_snoc by done. by apply insert_id.
    + rewrite length_app. simpl. unfold MAX_ARRAY_LENGTH in *. lia.
Qed.

Lemma handlers_of_iter_on t (h : nat) (n : nat) s :
  handlers_of (Nat.iter n (on t h) s) t = handlers_of s t ++ replicate n h.
Proof.
  induction n as [|n IH]; simpl.
  - by rewrite app_nil_r.
  - rewrite handlers_of_on, IH, <- app_assoc.
    by rewrite <- replicate_S_end.
Qed.

(** X8 (as many removals as registrations).  Register [h] under [t]
    [n] times, where it was not registered, then call [off(t, h)] [k]
    times, all within the legal array length: [h] is left registered
    [n - k] times, after the handlers [t] had before.  Each [off] undoes
    one registration; once none is left, further calls change nothing
    ([n - k] is [0] from [k = n] on). *)
Theorem off_undoes_one_registration t (h : nat) (n k : nat) s :
  h ∉ handlers_of s t →
  (Z.of_nat (length (handlers_of s t) + n) ≤ MAX_ARRAY_LENGTH)%Z →
  handlers_of (Nat.iter k (off t (Some h)) (Nat.iter n (on t h) s)) t
  = handlers_of s t ++ replicate (n - k) h.
Proof.
  intros Hh Hlen. induction k as [|k IH]; simpl.
  - by rewrite Nat.sub_0_r, handlers_of_iter_on.
  - rewrite handlers_of_off_handler, IH. rewrite splice_indexOf.
    + destruct (n - k) as [|m] eqn:Hnk.
      * replace (n - S k) with 0 by lia. simpl. rewrite !app_nil_r.
        by apply remove_first_occurrence_absent.
      * replace (n - S k) with m by lia. simpl.
        by apply remove_first_occurrence_first.
    + rewrite length_app, length_replicate. lia.
Qed.

(** A registry call on a key other than [k]. *)
Definition avoids {Payload : Type} k (c : call Payload) : Prop :=
  match c with
  | On t _ => t ≠ k
  | Off t _ => t ≠ k
  | Emit _ _ => False
  end.

Lemma all_on_ne t k (h : nat) s : k ≠ t → all (on t h s) !! k = all s !! k.
Proof.
  intros Hk. unfold on. destruct (all s !! t); simpl; [done|].
  by apply lookup_insert_ne.
Qed.

Lemma all_off_ne t k oh s : k ≠ t → all (off t oh s) !! k = all s !! k.
Proof.
  intros Hk. unfold off. destruct (all s !! t); [|done].
  destruct oh; simpl; [done|]. by apply lookup_insert_ne.
Qed.

(** X10 (one array under two keys).  When [t] and [k] refer to the same
    array object, as they can in a map the caller supplied, the two keys
    have one sequence.  [on(t, h)] appends [h] to the sequence of [k] as
    well.  [off(t, h)] splices the sequence of [k] as it does that of [t]:
    on an array of legal length it takes the first occurrence of [h] out
    of the sequence of [k].  After either call the two keys still share
    the array. *)
Theorem shared_array_is_seen_by_both_keys t k (h : nat) s :
  shares_array s t k →
  handlers_of s k = handlers_of s t
  ∧ handlers_of (on t h s) k = handlers_of s k ++ [h]
  ∧ handlers_of (off t (Some h) s) k
    = splice (to_uint32 (indexOf h (handlers_of s k))) 1 (handlers_of s k)
  ∧ ((Z.of_nat (length (handlers_of s k)) ≤ MAX_ARRAY_LENGTH)%Z →
     handlers_of (off t (Some h) s) k
     = remove_first_occurrence h (handlers_of s k))
  ∧ handlers_of (off t (Some h) s) k = handlers_of (off t (Some h) s) t
  ∧ shares_array (on t h s) t k
  ∧ shares_array (off t (Some h) s) t k.
Proof.
  intros (l & Ht & Hk).
  assert (Hsame : handlers_of s k = handlers_of s t).
  { unfold handlers_of. by rewrite Ht, Hk. }
  assert (Hoff : handlers_of (off t (Some h) s) k
                 = handlers_of (off t (Some h) s) t).
  { unfold off, handlers_of. rewrite Ht. simpl. by rewrite Ht, Hk. }
  assert (Hsplice : handlers_of (off t (Some h) s) k
                    = splice (to_uint32 (indexOf h (handlers_of s k))) 1
                        (handlers_of s k)).
  { by rewrite Hoff, handlers_of_off_handler, Hsame. }
  split; [done|]. split; [|split; [done|split; [|split; [done|split]]]].
  - unfold on, handlers_of. rewrite Ht. simpl. rewrite Hk.
    unfold array_at. simpl. by rewrite lookup_insert_eq.
  - intros Hlen. rewrite Hsplice. by apply splice_indexOf.
  - unfold on, shares_array. rewrite Ht. simpl. eauto.
  - unfold off, shares_array. rewrite Ht. simpl. eauto.
Qed.

(** X11 ([off(t)] binds a new array).  Clearing [t] writes to no existing
    array: every other key keeps its sequence, also a key that shared its
    array with [t], and after the call [t] shares its array with no other
    key.  A handler registered under [t] afterwards is alone in the
    sequence of [t], and no array that existed before the clear is
    written to by that registration either. *)
Theorem off_clear_rebinds t (h : nat) s :
  (∀ k, k ≠ t → handlers_of (off t None s) k = handlers_of s k)
  ∧ (∀ k, k ≠ t → ¬ shares_array (off t None s) t k)
  ∧ handlers_of (on t h (off t None s)) t = [h]
  ∧ (∀ l, l ∈ dom (heap s) →
          heap (on t h (off t None s)) !! l = heap s !! l).
Proof.
  split; [|split; [|split]].
  - intros k Hk. unfold off, handlers_of.
    destruct (all s !! t) as [l|] eqn:Ht; [|done]. simpl.
    rewrite lookup_insert_ne by done.
    destruct (all s !! k) as [l'|] eqn:Hl'; [|done].
    unfold array_at. simpl. rewrite lookup_insert_ne; [done|].
    intros Heq. apply (new_loc_unused s k). by rewrite Hl', Heq.
  - intros k Hk (l & H1 & H2). revert H1 H2. unfold off.
    destruct (all s !! t) as [l0|] eqn:Ht; simpl.
    + rewrite lookup_insert_eq, lookup_insert_ne by done.
      intros [= <-] H2. by destruct (new_loc_unused s k).
    + by rewrite Ht.
  - by rewrite handlers_of_on, handlers_of_off_clear.
  - intros l Hl. apply elem_of_dom in Hl as [hs Hhs].
    assert (Hnew : l ≠ new_loc s).
    { intros ->. by rewrite new_loc_unallocated in Hhs. }
    unfold off. destruct (all s !! t) as [l0|] eqn:Ht.
    + unfold on. simpl. rewrite lookup_insert_eq. simpl.
      by rewrite !lookup_insert_ne by done.
    + unfold on. rewrite Ht. simpl. by rewrite lookup_insert_ne by done.
Qed.
End Composition.

Section Invariants.
Context {Payload Exn User : Type}.
Variable behaviour : nat → args Payload → State User → outcome Exn User.
Implicit Types (s : State User) (t k : EventType) (v : Payload).

(** X9 (other keys are left alone).  In a registry with one array per
    key, any series of [on] and [off] calls on keys other than [k] leaves
    [k] as it was: the same array, holding the same handlers in the same
    order. *)
Theorem other_keys_untouched k (cs : list (call Payload)) s :
  NoAlias s → Forall (avoids k) cs →
  all (run_calls behaviour cs s) !! k = all s !! k
  ∧ handlers_of (run_calls behaviour cs s) k = handlers_of s k.
Proof.
  intros Hs Hcs.
  cut (NoAlias (run_calls behaviour cs s)
       ∧ all (run_calls behaviour cs s) !! k = all s !! k
       ∧ handlers_of (run_calls behaviour cs s) k = handlers_of s k);
    [tauto|].
  apply (run_calls_preserves behaviour
           (λ s0, NoAlias s0 ∧ all s0 !! k = all s !! k
                  ∧ handlers_of s0 k = handlers_of s k)); [|done].
  intros c s0 Hin (Hs0 & Ha & Hh).
  rewrite Forall_forall in Hcs. specialize (Hcs c Hin).
  destruct c as [t h|t oh|t v]; simpl in *; [| |done].
  - split; [by apply on_NoAlias|]. split.
    + by rewrite all_on_ne.
    + rewrite handlers_of_on_ne; [done| |done].
      apply NoAlias_not_shares; [done|congruence].
  - split; [by apply off_NoAlias|]. split.
    + by rewrite all_off_ne.
    + rewrite handlers_of_off_ne; [done| |done].
      apply NoAlias_not_shares; [done|congruence].
Qed.

(** X12 (one array per key is an invariant).  If the handlers do not
    make two keys share an array (they cannot by calling [on], [off] and
    [emit]), then no series of [on], [off] and [emit] calls does: a
    registry with one array per key stays one.  The registry of an emitter
    created without a map starts as one. *)
Theorem NoAlias_is_kept :
  (∀ h a s0, NoAlias s0 → NoAlias (final (behaviour h a s0))) →
  (∀ cs s, NoAlias s → NoAlias (run_calls behaviour cs s))
  ∧ (∀ cs hp u, NoAlias (run_calls behaviour cs (mkState (mitt None) hp u))).
Proof.
  intros Hh.
  assert (Hrun : ∀ cs s, NoAlias s → NoAlias (run_calls behaviour cs s)).
  { intros cs s Hs. apply (run_calls_preserves behaviour NoAlias); [|done].
    intros c s0 _ Hs0. destruct c as [t h|t oh|t v]; simpl.
    - by apply on_NoAlias.
    - by apply off_NoAlias.
    - by apply (emit_preserves behaviour NoAlias). }
  split; [exact Hrun|].
  intros cs hp u. apply Hrun. intros k1 k2 l Hk. simpl in Hk.
  by rewrite lookup_empty in Hk.
Qed.
End Invariants.


(** ** Wildcard handlers: when they are looked up, in what order they run *)

Section Wildcard.
Context {Payload Exn User : Type}.
Variable behaviour : nat → args Payload → State User → outcome Exn User.
Implicit Types (s : State User) (t k : EventType) (v : Payload).

(** X5 (the wildcard sequence is read after the type-matched pass).
    Suppose the handlers under [t] all return.  If what they did to the
    emitter amounts to [on('*', hw)], the wildcard pass of this same
    [emit(t, v)] is the pass over the old wildcard sequence followed by
    [hw]; if it amounts to [off('*', hw)] (the array being of legal
    length), it is the pass over the old sequence without its first [hw];
    in both cases, when no wildcard handler throws, exactly these handlers
    are called with [(t, v)], in this order.  If it amounts to
    [off('*')], no wildcard handler is called at all. *)
Theorem emit_wildcard_lookup_follows_type_pass t v s tr1 (hw : nat) :
  (dispatch behaviour (CallEvt v) (handlers_of s t) s
   = (tr1, Returned (on WILDCARD hw s)) →
   emit behaviour t v s
   = (tr1 ++ (dispatch behaviour (CallWild t v)
                (handlers_of s WILDCARD ++ [hw]) (on WILDCARD hw s)).1,
      (dispatch behaviour (CallWild t v)
         (handlers_of s WILDCARD ++ [hw]) (on WILDCARD hw s)).2)
   ∧ (returned (emit behaviour t v s).2 →
      (emit behaviour t v s).1
      = tr1 ++ calls (CallWild t v) (handlers_of s WILDCARD ++ [hw])))
  ∧ (dispatch behaviour (CallEvt v) (handlers_of s t) s
     = (tr1, Returned (off WILDCARD (Some hw) s)) →
     (Z.of_nat (length (handlers_of s WILDCARD)) ≤ MAX_ARRAY_LENGTH)%Z →
     emit behaviour t v s
     = (tr1 ++ (dispatch behaviour (CallWild t v)
                  (remove_first_occurrence hw (handlers_of s WILDCARD))
                  (off WILDCARD (Some hw) s)).1,
        (dispatch behaviour (CallWild t v)
           (remove_first_occurrence hw (handlers_of s WILDCARD))
           (off WILDCARD (Some hw) s)).2)
     ∧ (returned (emit behaviour t v s).2 →
        (emit behaviour t v s).1
        = tr1 ++ calls (CallWild t v)
                   (remove_first_occurrence hw (handlers_of s WILDCARD))))
  ∧ (dispatch behaviour (CallEvt v) (handlers_of s t) s
     = (tr1, Returned (off WILDCARD None s)) →
     emit behaviour t v s = (tr1, Returned (off WILDCARD None s))).
Proof.
  split; [|split].
  - intros Hd.
    assert (He : emit behaviour t v s
                 = (tr1 ++ (dispatch behaviour (CallWild t v)
                              (handlers_of s WILDCARD ++ [hw])
                              (on WILDCARD hw s)).1,
                    (dispatch behaviour (CallWild t v)
                       (handlers_of s WILDCARD ++ [hw]) (on WILDCARD hw s)).2)).
    { rewrite emit_unfold, Hd. simpl. by rewrite handlers_of_on. }
    split; [done|]. rewrite He. simpl. intros Hr.
    by rewrite dispatch_returned.
  - intros Hd Hlen.
    assert (He : emit behaviour t v s
                 = (tr1 ++ (dispatch behaviour (CallWild t v)
                              (remove_first_occurrence hw
                                 (handlers_of s WILDCARD))
                              (off WILDCARD (Some hw) s)).1,
                    (dispatch behaviour (CallWild t v)
                       (remove_first_occurrence hw (handlers_of s WILDCARD))
                       (off WILDCARD (Some hw) s)).2)).
    { rewrite emit_unfold, Hd. simpl.
      by rewrite handlers_of_off_handler, splice_indexOf. }
    split; [done|]. rewrite He. simpl. intros Hr.
    by rewrite dispatch_returned.
  - intros Hd. rewrite emit_unfold, Hd. simpl.
    rewrite handlers_of_off_clear. simpl. by rewrite app_nil_r.
Qed.

(** X6 (registration order among wildcard handlers).  Register [h1]
    under ['*'], then [h2] under ['*'], with any registry calls in between
    and afterwards that leave the two registrations in place, in a registry
    with one array per key whose arrays stay within the legal length.  Then
    an [emit(t, v)] in which no handler throws and the handlers under [t]
    leave the registry alone calls [h1(t, v)] at some position and
    [h2(t, v)] at a later one. *)
Theorem emit_wildcard_registration_order t (h1 h2 : nat) v mid post s :
  NoAlias s →
  Forall (keeps WILDCARD [h1]) mid → Forall (keeps WILDCARD [h1; h2]) post →
  (Z.of_nat (length (handlers_of s WILDCARD) + length mid + length post + 2)
   ≤ MAX_ARRAY_LENGTH)%Z →
  let s' := run_calls behaviour post
              (on WILDCARD h2 (run_calls behaviour mid (on WILDCARD h1 s))) in
  (∀ h s0, h ∈ handlers_of s' t →
           registry (final (behaviour h (CallEvt v) s0)) = registry s0) →
  returned (emit behaviour t v s').2 →
  ∃ i j, i < j
         ∧ (emit behaviour t v s').1 !! i = Some (h1, CallWild t v)
         ∧ (emit behaviour t v s').1 !! j = Some (h2, CallWild t v).
Proof.
  intros Hs Hmid Hpost Hlen s' Hinert Hret.
  set (n := length (handlers_of s WILDCARD)) in *.
  assert (H1 : kept WILDCARD [h1] (S n) (on WILDCARD h1 s)).
  { split; [by apply on_NoAlias|]. rewrite handlers_of_on, length_app.
    simpl. split; [by apply sublist_inserts_l|]. fold n. lia. }
  apply (keeps_calls behaviour WILDCARD [h1] mid) in H1; [|done|lia].
  destruct H1 as (Hs2 & Hw2 & Hlen2).
  assert (H3 : kept WILDCARD [h1; h2] (S (S n + length mid))
                 (on WILDCARD h2
                    (run_calls behaviour mid (on WILDCARD h1 s)))).
  { split; [by apply on_NoAlias|]. rewrite handlers_of_on, length_app.
    simpl. split; [|lia]. by apply (sublist_app [h1] _ [h2] [h2]). }
  apply (keeps_calls behaviour WILDCARD [h1; h2] post) in H3; [|done|lia].
  destruct H3 as (_ & Hw4 & _). fold s' in Hw4.
  destruct (sublist_pair_lookup _ _ _ Hw4) as (i & j & Hij & Hi & Hj).
  destruct (emit_returned behaviour t v s' Hret) as (s1 & s2 & Hd & ->).
  pose proof (dispatch_preserves behaviour (λ s0, registry s0 = registry s')
                (CallEvt v) (handlers_of s' t) s'
                (λ h s0 Hin Hs0, eq_trans (Hinert h s0 Hin) Hs0) eq_refl)
    as Hreg.
  rewrite Hd in Hreg. simpl in Hreg.
  rewrite (handlers_of_registry s1 s' WILDCARD Hreg). simpl.
  set (m := length (calls (CallEvt v) (handlers_of s' t))).
  exists (m + i), (m + j). split; [lia|].
  assert (Hlook : ∀ p h, handlers_of s' WILDCARD !! p = Some h →
            (calls (CallEvt v) (handlers_of s' t)
               ++ calls (CallWild t v) (handlers_of s' WILDCARD)) !! (m + p)
            = Some (h, CallWild t v)).
  { intros p h Hp. rewrite lookup_app_r by (unfold m; lia).
    replace (m + p - length (calls (CallEvt v) (handlers_of s' t))) with p
      by (unfold m; lia).
    unfold calls. by rewrite list_lookup_fmap, Hp. }
  split; by apply Hlook.
Qed.
End Wildcard.


(** ** The key set after a series of calls *)

Section KeySet.
Context {Payload Exn User : Type}.
Variable behaviour : nat → args Payload → State User → outcome Exn User.
Implicit Types (s : State User) (t k : EventType) (v : Payload).

(** The keys a call registers a handler under. *)
Definition registers (c : call Payload) : gset EventType :=
  match c with
  | On t _ => {[t]}
  | Off _ _ => ∅
  | Emit _ _ => ∅
  end.

Definition registered_keys (cs : list (call Payload)) : gset EventType :=
  ⋃ (registers <$> cs).

(** X13 (which keys the map has).  If calling a handler leaves the key
    set of the map as it is, then after any series of [on], [off] and
    [emit] calls the keys of the map are exactly the keys it had and the
    keys [on] was called with: only [on] creates a key, [off] neither
    deletes the key it empties nor creates the key it does not find, and
    [emit] creates no key for an event nobody listens to. *)
Theorem keys_are_those_registered :
  (∀ h a s0, dom (all (final (behaviour h a s0))) = dom (all s0)) →
  ∀ cs s,
    dom (all (run_calls behaviour cs s)) = dom (all s) ∪ registered_keys cs.
Proof.
  intros Hh cs. unfold run_calls, registered_keys.
  induction cs as [|c cs IH]; intros s; simpl.
  - by rewrite (right_id_L ∅ (∪)).
  - rewrite IH.
    assert (Hc : dom (all (run_call behaviour s c))
                 = dom (all s) ∪ registers c).
    { destruct c as [t h|t oh|t v]; simpl.
      - rewrite dom_all_on. apply (comm_L (∪)).
      - by rewrite dom_all_off, (right_id_L ∅ (∪)).
      - rewrite (right_id_L ∅ (∪)).
        apply (emit_preserves behaviour (λ s0, dom (all s0) = dom (all s)));
          [|done].
        intros h a s0 Hs0. by rewrite Hh. }
    rewrite Hc. by rewrite (assoc_L (∪)).
Qed.
End KeySet.


(** ** Concrete runs of the further properties *)

(** Handler 1 does [f] to the emitter; the other handlers do nothing. *)
Definition applying (f : State nat → State nat)
  (h : nat) (a : args nat) (s : State nat) : outcome string nat :=
  match h with
  | 1 => Returned (f s)
  | _ => Returned s
  end.

Lemma foo_registry_NoAlias : NoAlias foo_registry.
Proof. repeat apply on_NoAlias. exact empty_registry_NoAlias. Qed.

Lemma emit_without_type_handlers_witness :
  handlers_of foo_registry bar = []
  ∧ emit counting bar 5 foo_registry
    = dispatch counting (CallWild bar 5) (handlers_of foo_registry WILDCARD)
        foo_registry
  ∧ (∀ h a, (h, a) ∈ (emit counting bar 5 foo_registry).1 →
            a = CallWild bar 5 ∧ h ∈ handlers_of foo_registry WILDCARD)
  ∧ (handlers_of foo_registry WILDCARD = [] →
     emit counting bar 5 foo_registry = ([], Returned foo_registry)).
Proof.
  assert (Hbar : handlers_of foo_registry bar = []) by (by vm_compute).
  exact (conj Hbar (emit_without_type_handlers counting bar 5 foo_registry Hbar)).
Defined.

(** An event of a type without handlers reaches the wildcard handler,
    which gets the type as its first argument. *)
Example emit_unregistered_type_run :
  (emit counting bar 5 foo_registry).1 = [(7, CallWild bar 5)].
Proof. by vm_compute. Qed.

Lemma emit_calls_only_registered_witness :
  (9, CallEvt 5)
  ∈ (emit self_removing foo 5
       (final (emit self_removing foo 5 foo_registry).2)).1
  ∧ ((CallEvt 5 = CallEvt 5
      ∧ 9 ∈ handlers_of (final (emit self_removing foo 5 foo_registry).2) foo)
     ∨ (CallEvt 5 = CallWild foo 5
        ∧ ∃ s1,
            (dispatch self_removing (CallEvt 5)
               (handlers_of (final (emit self_removing foo 5 foo_registry).2)
                  foo)
               (final (emit self_removing foo 5 foo_registry).2)).2
            = Returned s1
            ∧ 9 ∈ handlers_of s1 WILDCARD)).
Proof.
  assert (Hin : (9, CallEvt 5)
                ∈ (emit self_removing foo 5
                     (final (emit self_removing foo 5 foo_registry).2)).1).
  { assert (Htr : (emit self_removing foo 5
                     (final (emit self_removing foo 5 foo_registry).2)).1
                  = [(3, CallEvt 5); (9, CallEvt 5); (7, CallWild foo 5)])
      by (by vm_compute).
    rewrite Htr. apply list_elem_of_further, list_elem_of_here. }
  exact (conj Hin (emit_calls_only_registered self_removing foo 5 _ 9 _ Hin)).
Defined.

(** ["foo"] has handler 1, ['*'] has handlers 7 and 8. *)
Definition wildcard_pair_registry : State nat :=
  on WILDCARD 8 (on WILDCARD 7 (on foo 1 empty_registry)).

Lemma emit_wildcard_lookup_follows_type_pass_witness :
  (emit (applying (on WILDCARD 2)) foo 5 wildcard_pair_registry).1
  = [(1, CallEvt 5)] ++ calls (CallWild foo 5)
                          (handlers_of wildcard_pair_registry WILDCARD ++ [2])
  ∧ (emit (applying (off WILDCARD (Some 7))) foo 5 wildcard_pair_registry).1
    = [(1, CallEvt 5)]
        ++ calls (CallWild foo 5)
             (remove_first_occurrence 7
                (handlers_of wildcard_pair_registry WILDCARD))
  ∧ emit (applying (off WILDCARD None)) foo 5 wildcard_pair_registry
    = ([(1, CallEvt 5)], Returned (off WILDCARD None wildcard_pair_registry)).
Proof.
  split; [|split].
  - apply (proj1 (emit_wildcard_lookup_follows_type_pass
                    (applying (on WILDCARD 2)) foo 5 wildcard_pair_registry
                    [(1, CallEvt 5)] 2));
      by vm_compute.
  - apply (proj1 (proj2 (emit_wildcard_lookup_follows_type_pass
                           (applying (off WILDCARD (Some 7))) foo 5
                           wildcard_pair_registry [(1, CallEvt 5)] 7)));
      by vm_compute.
  - apply (proj2 (proj2 (emit_wildcard_lookup_follows_type_pass
                           (applying (off WILDCARD None)) foo 5
                           wildcard_pair_registry [(1, CallEvt 5)] 0)));
      by vm_compute.
Defined.

(** The three runs: the wildcard handler registered by handler 1 is
    called in the same [emit], the one it removes is not, and after it
    cleared ['*'] none is. *)
Example emit_wildcard_lookup_runs :
  (emit (applying (on WILDCARD 2)) foo 5 wildcard_pair_registry).1
  = [(1, CallEvt 5); (7, CallWild foo 5); (8, CallWild foo 5);
     (2, CallWild foo 5)]
  ∧ (emit (applying (off WILDCARD (Some 7))) foo 5 wildcard_pair_registry).1
    = [(1, CallEvt 5); (8, CallWild foo 5)]
  ∧ (emit (applying (off WILDCARD None)) foo 5 wildcard_pair_registry).1
    = [(1, CallEvt 5)].
Proof. by vm_compute. Qed.

Definition wild_calls_between : list (call nat) :=
  [On WILDCARD 3; Off WILDCARD (Some 3); On foo 7; Off bar None].

Definition wild_calls_after : list (call nat) :=
  [On WILDCARD 4; Off foo None; On foo 5].

Lemma wild_calls_between_keep : Forall (keeps WILDCARD [4]) wild_calls_between.
Proof.
  repeat apply Forall_cons_2; try apply Forall_nil; simpl; try done.
  right. by intros ?%list_elem_of_singleton.
Qed.

Lemma wild_calls_after_keep : Forall (keeps WILDCARD [4; 6]) wild_calls_after.
Proof.
  repeat apply Forall_cons_2; try apply Forall_nil; simpl; done.
Qed.

Lemma emit_wildcard_registration_order_witness :
  NoAlias empty_registry
  ∧ Forall (keeps WILDCARD [4]) wild_calls_between
  ∧ Forall (keeps WILDCARD [4; 6]) wild_calls_after
  ∧ ∃ i j, i < j
      ∧ (emit counting foo 5
           (run_calls counting wild_calls_after
              (on WILDCARD 6 (run_calls counting wild_calls_between
                                (on WILDCARD 4 empty_registry))))).1 !! i
        = Some (4, CallWild foo 5)
      ∧ (emit counting foo 5
           (run_calls counting wild_calls_after
              (on WILDCARD 6 (run_calls counting wild_calls_between
                                (on WILDCARD 4 empty_registry))))).1 !! j
        = Some (6, CallWild foo 5).
Proof.
  split; [exact empty_registry_NoAlias|].
  split; [exact wild_calls_between_keep|].
  split; [exact wild_calls_after_keep|].
  apply (emit_wildcard_registration_order counting foo 4 6 5
           wild_calls_between wild_calls_after empty_registry
           empty_registry_NoAlias wild_calls_between_keep
           wild_calls_after_keep);
    [by vm_compute| |by vm_compute].
  intros h s0 _. apply counting_keeps_registry.
Defined.

Example emit_wildcard_registration_order_run :
  (emit counting foo 5
     (run_calls counting wild_calls_after
        (on WILDCARD 6 (run_calls counting wild_calls_between
                          (on WILDCARD 4 empty_registry))))).1
  = [(5, CallEvt 5); (4, CallWild foo 5); (6, CallWild foo 5);
     (4, CallWild foo 5)].
Proof. by vm_compute. Qed.

Lemma on_then_off_witness :
  (Z.of_nat (length (handlers_of duplicate_registry foo)) < MAX_ARRAY_LENGTH)%Z
  ∧ (1 ∈ handlers_of duplicate_registry foo →
     handlers_of (off foo (Some 1) (on foo 1 duplicate_registry)) foo
     = remove_first_occurrence 1 (handlers_of duplicate_registry foo) ++ [1])
  ∧ (9 ∉ handlers_of duplicate_registry foo →
     handlers_of (off foo (Some 9) (on foo 9 duplicate_registry)) foo
     = handlers_of duplicate_registry foo)
  ∧ is_Some (all (off bar (Some 9) (on bar 9 duplicate_registry)) !! bar).
Proof.
  assert (Hfoo : (Z.of_nat (length (handlers_of duplicate_registry foo))
                  < MAX_ARRAY_LENGTH)%Z) by (by vm_compute).
  assert (Hbar : (Z.of_nat (length (handlers_of duplicate_registry bar))
                  < MAX_ARRAY_LENGTH)%Z) by (by vm_compute).
  exact (conj Hfoo
           (conj (proj1 (proj2 (on_then_off foo 1 duplicate_registry Hfoo)))
              (conj (proj1 (on_then_off foo 9 duplicate_registry Hfoo))
                 (proj1 (proj2 (proj2
                    (on_then_off bar 9 duplicate_registry Hbar))))))).
Defined.

(** Registered again and removed once, handler 1 of [1, 2, 1] loses its
    first registration: [2, 1, 1].  A handler registered under a new key
    and removed again leaves the key behind, with no handler. *)
Example on_then_off_runs :
  handlers_of (off foo (Some 1) (on foo 1 duplicate_registry)) foo = [2; 1; 1]
  ∧ off foo (Some 9) (on foo 9 duplicate_registry) = duplicate_registry
  ∧ all duplicate_registry !! bar = None
  ∧ all (off bar (Some 9) (on bar 9 duplicate_registry)) !! bar = Some 1
  ∧ handlers_of (off bar (Some 9) (on bar 9 duplicate_registry)) bar = [].
Proof. by vm_compute. Qed.

Lemma off_undoes_one_registration_witness :
  (9 ∉ handlers_of foo_registry foo)
  ∧ (Z.of_nat (length (handlers_of foo_registry foo) + 3)
     ≤ MAX_ARRAY_LENGTH)%Z
  ∧ handlers_of (Nat.iter 2 (off foo (Some 9))
                   (Nat.iter 3 (on foo 9) foo_registry)) foo
    = handlers_of foo_registry foo ++ replicate (3 - 2) 9.
Proof.
  assert (Habsent : 9 ∉ handlers_of foo_registry foo).
  { assert (Hhs : handlers_of foo_registry foo = [1; 3]) by (by vm_compute).
    rewrite Hhs. intros Hin.
    apply elem_of_cons in Hin as [?|Hin]; [done|].
    by apply list_elem_of_singleton in Hin. }
  assert (Hlen : (Z.of_nat (length (handlers_of foo_registry foo) + 3)
                  ≤ MAX_ARRAY_LENGTH)%Z) by (by vm_compute).
  exact (conj Habsent
           (conj Hlen
              (off_undoes_one_registration foo 9 3 2 foo_registry
                 Habsent Hlen))).
Defined.

Definition calls_elsewhere : list (call nat) :=
  [On bar 4; Off bar (Some 4); On WILDCARD 8; Off WILDCARD None; On bar 1].

Lemma calls_elsewhere_avoid : Forall (avoids foo) calls_elsewhere.
Proof. repeat apply Forall_cons_2; try apply Forall_nil; simpl; done. Qed.

Lemma other_keys_untouched_witness :
  NoAlias foo_registry
  ∧ Forall (avoids foo) calls_elsewhere
  ∧ all (run_calls counting calls_elsewhere foo_registry) !! foo
    = all foo_registry !! foo
  ∧ handlers_of (run_calls counting calls_elsewhere foo_registry) foo
    = handlers_of foo_registry foo.
Proof.
  exact (conj foo_registry_NoAlias
           (conj calls_elsewhere_avoid
              (other_keys_untouched counting foo calls_elsewhere foo_registry
                 foo_registry_NoAlias calls_elsewhere_avoid))).
Defined.

Lemma shared_registry_shares : shares_array shared_registry foo WILDCARD.
Proof. exists 0. split; by vm_compute. Qed.

Lemma shared_array_is_seen_by_both_keys_witness :
  shares_array shared_registry foo WILDCARD
  ∧ handlers_of shared_registry WILDCARD = handlers_of shared_registry foo
  ∧ handlers_of (on foo 1 shared_registry) WILDCARD
    = handlers_of shared_registry WILDCARD ++ [1]
  ∧ handlers_of (off foo (Some 1) shared_registry) WILDCARD
    = splice (to_uint32 (indexOf 1 (handlers_of shared_registry WILDCARD))) 1
        (handlers_of shared_registry WILDCARD)
  ∧ ((Z.of_nat (length (handlers_of shared_registry WILDCARD))
      ≤ MAX_ARRAY_LENGTH)%Z →
     handlers_of (off foo (Some 1) shared_registry) WILDCARD
     = remove_first_occurrence 1 (handlers_of shared_registry WILDCARD))
  ∧ handlers_of (off foo (Some 1) shared_registry) WILDCARD
    = handlers_of (off foo (Some 1) shared_registry) foo
  ∧ shares_array (on foo 1 shared_registry) foo WILDCARD
  ∧ shares_array (off foo (Some 1) shared_registry) foo WILDCARD.
Proof.
  exact (conj shared_registry_shares
           (shared_array_is_seen_by_both_keys foo WILDCARD 1 shared_registry
              shared_registry_shares)).
Defined.

(** On the shared array: registering under ["foo"] shows under ['*'],
    removing handler 1 under ["foo"] empties ['*'] too, and clearing
    ["foo"] leaves ['*'] with its handler. *)
Example shared_array_runs :
  handlers_of (on foo 2 shared_registry) WILDCARD = [1; 2]
  ∧ handlers_of (off foo (Some 1) shared_registry) WILDCARD = []
  ∧ handlers_of (off foo None shared_registry) WILDCARD = [1]
  ∧ handlers_of (on foo 2 (off foo None shared_registry)) WILDCARD = [1].
Proof. by vm_compute. Qed.

Lemma self_removing_keeps_NoAlias (h : nat) (a : args nat) (s0 : State nat) :
  NoAlias s0 → NoAlias (final (self_removing h a s0)).
Proof.
  intros Hs0. destruct h as [|[|h]]; simpl; [done| |done].
  by apply on_NoAlias, off_NoAlias.
Qed.

Lemma NoAlias_is_kept_witness :
  (∀ h a s0, NoAlias s0 → NoAlias (final (self_removing h a s0)))
  ∧ NoAlias (run_calls self_removing
               [On foo 1; On WILDCARD 7; Emit foo 5; Off foo None; On bar 4]
               (mkState (mitt None) ∅ 0)).
Proof.
  split; [exact self_removing_keeps_NoAlias|].
  apply (proj2 (NoAlias_is_kept self_removing self_removing_keeps_NoAlias)).
Defined.

Lemma counting_keeps_keys (h : nat) (a : args nat) (s0 : State nat) :
  dom (all (final (counting h a s0))) = dom (all s0).
Proof. by destruct h as [|[|[|h]]]. Qed.

Lemma keys_are_those_registered_witness :
  (∀ h a s0, dom (all (final (counting h a s0))) = dom (all s0))
  ∧ dom (all (run_calls counting
                [Emit bar 5; Off bar None; Off foo None; On WILDCARD 2;
                 Emit foo 1]
                foo_registry))
    = dom (all foo_registry)
      ∪ registered_keys
          [Emit bar 5; Off bar None; Off foo None; On WILDCARD 2; Emit foo 1].
Proof.
  split; [exact counting_keeps_keys|].
  apply (keys_are_those_registered counting counting_keeps_keys).
Defined.

(** Emitting and removing under ["bar"] did not create the key, and
    clearing ["foo"] did not delete it. *)
Example keys_run :
  dom (all (run_calls counting
              [Emit bar 5; Off bar None; Off foo None; On WILDCARD 2;
               Emit foo 1]
              foo_registry))
  = {[foo; WILDCARD]}.
Proof. by vm_compute. Qed.

End Mitt.
